(** * AddressAutocomplete.tsx: a model of the address autocomplete widget

    The development follows src/components/AddressAutocomplete.tsx.
    Pure helpers ([getAddressComponent], the detail fetcher's record
    construction, [emptyAddress]) are plain functions.  The module-level
    promise of [loadGoogleMapsScript], the [useDebounce] hook and the
    component's handlers are state-passing functions over explicit state
    records; asynchronous callbacks (timers, provider responses,
    geolocation callbacks) are events of a step function. *)

From Stdlib Require Import Floats.SpecFloat.
From stdpp Require Import gmap strings list fin_maps.

Local Open Scope string_scope.
Local Open Scope list_scope.
Local Open Scope nat_scope.

(** ** JavaScript values used by the component *)
Module JS.

(** A JS [number] is an IEEE-754 binary64 value. *)
Definition number : Type := spec_float.

Definition zero : number := S754_zero false.

(** Truthiness of a number: [0], [-0] and [NaN] are falsy. *)
Definition number_truthy (x : number) : bool :=
  match x with
  | S754_zero _ | S754_nan => false
  | _ => true
  end.

(** Truthiness of a string: only the empty string is falsy. *)
Definition truthy (s : string) : bool :=
  match s with
  | EmptyString => false
  | String _ _ => true
  end.

(** [a || b] on strings. *)
Definition or_else (a b : string) : string :=
  if truthy a then a else b.

(** [a || b] where [a] may be [undefined]. *)
Definition opt_or_else (a : option string) (b : string) : string :=
  match a with
  | Some s => or_else s b
  | None => b
  end.

(** [x || 0] where [x] may be [undefined]. *)
Definition opt_or_zero (x : option number) : number :=
  match x with
  | Some v => if number_truthy v then v else zero
  | None => zero
  end.

(** [Array.prototype.includes] on an array of strings. *)
Definition includes (x : string) (l : list string) : bool :=
  existsb (String.eqb x) l.

#[global] Instance number_eq_dec : EqDecision number.
Proof. solve_decision. Defined.

End JS.

(** ** Address records and the provider's place result *)
Module Address.
Import JS.

Record AddressType := mkAddress {
  address1 : string;
  address2 : string;
  formattedAddress : string;
  city : string;
  region : string;
  postalCode : string;
  country : string;
  lat : number;
  lng : number
}.

#[global] Instance AddressType_eq_dec : EqDecision AddressType.
Proof. solve_decision. Defined.

(** google.maps.GeocoderAddressComponent *)
Record GeocoderAddressComponent := mkComponent {
  long_name : string;
  short_name : string;
  types : list string
}.

Inductive NameFormat := LongName | ShortName.

Definition component_name (format : NameFormat) (c : GeocoderAddressComponent) : string :=
  match format with
  | LongName => long_name c
  | ShortName => short_name c
  end.

Record LatLng := mkLatLng { latOf : number; lngOf : number }.

(** [geometry] and [geometry.location] are both optional. *)
Record PlaceGeometry := mkGeometry { location : option LatLng }.

(** The fields of google.maps.places.PlaceResult the component reads. *)
Record GooglePlaceResult := mkPlaceResult {
  address_components : option (list GeocoderAddressComponent);
  formatted_address : option string;
  geometry : option PlaceGeometry
}.

Definition getAddressComponent
    (components : option (list GeocoderAddressComponent))
    (type : string) (format : NameFormat) : string :=
  match components with
  | None => ""
  | Some cs =>
      match List.find (fun c => includes type (types c)) cs with
      | Some c => component_name format c
      | None => ""
      end
  end.

Definition emptyAddress : AddressType :=
  {| address1 := ""; address2 := ""; formattedAddress := "";
     city := ""; region := ""; postalCode := ""; country := "";
     lat := zero; lng := zero |}.

(** [result.geometry?.location?.lat()] and [...lng()] *)
Definition geometry_lat (r : GooglePlaceResult) : option number :=
  match geometry r with
  | Some g => match location g with Some l => Some (latOf l) | None => None end
  | None => None
  end.

Definition geometry_lng (r : GooglePlaceResult) : option number :=
  match geometry r with
  | Some g => match location g with Some l => Some (lngOf l) | None => None end
  | None => None
  end.

(** The record built by the detail fetcher from a place result. *)
Definition buildAddress (result : GooglePlaceResult) : AddressType :=
  {| address1 :=
       String.append
         (String.append
            (getAddressComponent (address_components result) "street_number" ShortName)
            " ")
         (getAddressComponent (address_components result) "route" ShortName);
     address2 := "";
     formattedAddress := opt_or_else (formatted_address result) "";
     city := getAddressComponent (address_components result) "locality" LongName;
     region :=
       getAddressComponent (address_components result)
         "administrative_area_level_1" ShortName;
     postalCode := getAddressComponent (address_components result) "postal_code" ShortName;
     country := getAddressComponent (address_components result) "country" LongName;
     lat := opt_or_zero (geometry_lat result);
     lng := opt_or_zero (geometry_lng result) |}.

End Address.

(** ** The memoized provider bootstrap *)
Module Bootstrap.

Inductive PromiseState := Pending | Fulfilled | Rejected.

(** Promises are heap objects; a promise reference is its index in
    [promises].  [googleMapsPromise] is the module-level variable,
    [windowGoogleMaps] says whether [window.google?.maps] is truthy and
    [headScripts] lists the [src] of the script elements appended to
    [document.head], oldest first. *)
Record World := mkWorld {
  googleMapsPromise : option nat;
  promises : list PromiseState;
  windowGoogleMaps : bool;
  headScripts : list string
}.

Definition initial (google_present : bool) : World :=
  {| googleMapsPromise := None; promises := [];
     windowGoogleMaps := google_present; headScripts := [] |}.

Definition script_src (apiKey : string) : string :=
  String.append "https://maps.googleapis.com/maps/api/js?key="
    (String.append apiKey "&libraries=places").

Definition loadGoogleMapsScript (apiKey : string) (w : World) : nat * World :=
  match googleMapsPromise w with
  | Some p => (p, w)
  | None =>
      let p := length (promises w) in
      if windowGoogleMaps w then
        (p, {| googleMapsPromise := Some p;
               promises := promises w ++ [Fulfilled];
               windowGoogleMaps := windowGoogleMaps w;
               headScripts := headScripts w |})
      else
        (p, {| googleMapsPromise := Some p;
               promises := promises w ++ [Pending];
               windowGoogleMaps := windowGoogleMaps w;
               headScripts := headScripts w ++ [script_src apiKey] |})
  end.

(** Settling a promise: only a pending promise changes state. *)
Definition settle (p : nat) (s : PromiseState) (w : World) : World :=
  match promises w !! p with
  | Some Pending =>
      {| googleMapsPromise := googleMapsPromise w;
         promises := <[p := s]> (promises w);
         windowGoogleMaps := windowGoogleMaps w;
         headScripts := headScripts w |}
  | _ => w
  end.

(** The callbacks of the script element created for promise [p]. *)
Inductive ScriptEvent :=
| Onload (p : nat)
| Onerror (p : nat).

Definition script_step (w : World) (e : ScriptEvent) : World :=
  match e with
  | Onload p =>
      settle p Fulfilled
        {| googleMapsPromise := googleMapsPromise w;
           promises := promises w;
           windowGoogleMaps := true;
           headScripts := headScripts w |}
  | Onerror p => settle p Rejected w
  end.

Definition script_run (w : World) (es : list ScriptEvent) : World :=
  fold_left script_step es w.

End Bootstrap.

(** ** The [useDebounce] hook *)
Module Debounce.

(** [delay || 500] for an optional numeric delay in milliseconds. *)
Definition delayMs (delay : option nat) : nat :=
  match delay with
  | Some (S d) => S d
  | _ => 500
  end.

(** One mounted instance of the hook.  [value] and [delay] are the
    dependencies seen by the last run of the effect; [timer] is the
    pending [setTimeout]: its deadline and the value its callback
    closes over. *)
Record Hook := mkHook {
  debouncedValue : string;
  value : string;
  delay : option nat;
  timer : option (nat * string)
}.

(** First render at time [now]: the state starts at [v] and the effect
    arms a timer. *)
Definition mount (now : nat) (v : string) (d : option nat) : Hook :=
  {| debouncedValue := v; value := v; delay := d;
     timer := Some (now + delayMs d, v) |}.

(** A later render at time [now] with arguments [v] and [d]: when a
    dependency changed, the cleanup clears the pending timer and the
    effect arms a new one. *)
Definition render (now : nat) (v : string) (d : option nat) (h : Hook) : Hook :=
  if bool_decide (v = value h ∧ d = delay h) then h
  else {| debouncedValue := debouncedValue h; value := v; delay := d;
          timer := Some (now + delayMs d, v) |}.

(** A call [useDebounce(value, delay)] during a render at time [now];
    [h] is the hook's state from the previous render, if the component
    was mounted.  The call returns [debouncedValue] of the new state. *)
Definition useDebounce (now : nat) (v : string) (d : option nat)
    (h : option Hook) : Hook :=
  match h with
  | None => mount now v d
  | Some h => render now v d h
  end.

(** The clock reaches [now]: a due timer runs its callback
    [setDebouncedValue(value)].  The second component lists the values
    passed to [setDebouncedValue]. *)
Definition advance (now : nat) (h : Hook) : Hook * list string :=
  match timer h with
  | Some (deadline, v) =>
      if deadline <=? now then
        ({| debouncedValue := v; value := value h; delay := delay h;
            timer := None |}, [v])
      else (h, [])
  | None => (h, [])
  end.

(** A burst of renders [(t, v)], oldest first, at a fixed delay; the
    clock is advanced to each render's time before it happens. *)
Fixpoint run (d : option nat) (h : Hook) (burst : list (nat * string))
    : Hook * list string :=
  match burst with
  | [] => (h, [])
  | (t, v) :: rest =>
      let '(h1, out1) := advance t h in
      let '(h2, out2) := run d (useDebounce t v d (Some h1)) rest in
      (h2, out1 ++ out2)
  end.

(** The burst followed by the clock reaching [final]. *)
Definition run_until (d : option nat) (h : Hook) (burst : list (nat * string))
    (final : nat) : Hook * list string :=
  let '(h1, out1) := run d h burst in
  let '(h2, out2) := advance final h1 in
  (h2, out1 ++ out2).

End Debounce.

(** ** The SWR request cache

    [useSWR] comes from the [swr] package, which the repository only
    imports; it is modelled by its contract.  [useSWR(key, fetcher)]
    keeps one cache entry per key; the hook returns the entry of the key
    it is called with at the current render, and [undefined] for a
    [null] key.  A settled request writes the entry of the key it was
    issued for, whatever the key of the hook is by then.  Both [useSWR]
    calls of the component use plain string keys in the same cache.
    Revalidation (an error retry, a reconnect) issues further requests:
    such a request shows as loading while its key has no data, and its
    answer is a further response. *)
Module SWR.
Import Address.

(** An element of [data.suggestions]. *)
Record Suggestion := mkSuggestion {
  placeId : string;
  place : string;
  text : string
}.

(** The values the two fetchers resolve to. *)
Inductive Data :=
| SuggestionsData (suggestions : list Suggestion)
| AddressData (address : AddressType).

Record Entry := mkEntry {
  data : option Data;
  error : bool;
  isLoading : bool
}.

#[global] Instance Suggestion_eq_dec : EqDecision Suggestion.
Proof. solve_decision. Defined.

#[global] Instance Data_eq_dec : EqDecision Data.
Proof. solve_decision. Defined.

(** The fetcher for [k] resolved with [d]. *)
Definition fulfil (k : string) (d : Data) (cache : gmap string Entry)
    : gmap string Entry :=
  <[k := {| data := Some d; error := false; isLoading := false |}]> cache.

(** The fetcher for [k] rejected: the error is recorded and the data of
    the entry, if any, stays. *)
Definition reject (k : string) (cache : gmap string Entry) : gmap string Entry :=
  <[k := {| data := (cache !! k) ≫= data; error := true; isLoading := false |}]> cache.

(** A request for [k] goes out again (a retry after an error, or a
    revalidation): data and error stay, and the entry is loading when it
    has no data. *)
Definition startRequest (k : string) (cache : gmap string Entry) : gmap string Entry :=
  <[k := {| data := (cache !! k) ≫= data;
            error := match cache !! k with Some e => error e | None => false end;
            isLoading := match (cache !! k) ≫= data with Some _ => false | None => true end |}]>
    cache.

(** The [data] a hook called with [key] returns. *)
Definition hookData (cache : gmap string Entry) (key : option string) : option Data :=
  match key with
  | None => None
  | Some k => (cache !! k) ≫= data
  end.

(** The [error] a hook called with [key] returns. *)
Definition hookError (cache : gmap string Entry) (key : option string) : bool :=
  match key with
  | None => false
  | Some k => match cache !! k with Some e => error e | None => false end
  end.

(** [isLoading]: a request for the key is out and the key has no data.
    The first request for a key goes out when the key becomes active, so
    a key without an entry is loading. *)
Definition hookIsLoading (cache : gmap string Entry) (key : option string) : bool :=
  match key with
  | None => false
  | Some k => match cache !! k with Some e => isLoading e | None => true end
  end.

End SWR.

(** ** The component: [AddressAutoComplete] and [AddressAutoCompleteInput] *)
Module Widget.
Import JS Address SWR.

(** google.maps.places.PlacesServiceStatus *)
Inductive PlacesServiceStatus :=
| INVALID_REQUEST | NOT_FOUND | OK | OVER_QUERY_LIMIT
| REQUEST_DENIED | UNKNOWN_ERROR | ZERO_RESULTS.

(** The callback of [placesService.getDetails] inside
    [fetchPlaceDetails]: [None] is the rejection. *)
Definition fetchPlaceDetails (result : option GooglePlaceResult)
    (status : PlacesServiceStatus) : option GooglePlaceResult :=
  match status, result with
  | OK, Some r => Some r
  | _, _ => None
  end.

(** How a detail request ends: the constructor or [getDetails] throws,
    or the callback is invoked. *)
Inductive DetailsOutcome :=
| DetailsThrew
| DetailsCallback (result : option GooglePlaceResult) (status : PlacesServiceStatus).

(** The detail fetcher passed to [useSWR]. *)
Definition detailFetcher (o : DetailsOutcome) : option Data :=
  match o with
  | DetailsThrew => None
  | DetailsCallback result status =>
      match fetchPlaceDetails result status with
      | Some r => Some (AddressData (buildAddress r))
      | None => None
      end
  end.

(** google.maps.places.AutocompletePrediction, the fields read. *)
Record AutocompletePrediction := mkPrediction {
  place_id : string;
  description : string
}.

(** The suggestion fetcher passed to [useSWR]; [None] is
    [getPlacePredictions] rejecting. *)
Definition suggestionFetcher (o : option (list AutocompletePrediction)) : option Data :=
  match o with
  | Some predictions =>
      Some (SuggestionsData
              (map (fun prediction =>
                      {| placeId := place_id prediction;
                         place := place_id prediction;
                         text := description prediction |}) predictions))
  | None => None
  end.

(** How the reverse geocode of [handleLocationDetect] ends: it throws,
    or resolves with the place ids of [result.results]. *)
Inductive GeocodeOutcome :=
| GeocodeThrew
| GeocodeResults (place_ids : list string).

(** The props that decide what is rendered. *)
Record Config := mkConfig {
  showInlineError : bool;
  showLocationIcon : bool
}.

(** [address] and [searchInput] are the host's state, changed through
    [setAddress] and [setSearchInput]; [committed] lists the arguments
    of the [setAddress] calls, newest first.  [selectedPlaceId],
    [isLocating] and [isOpen] are the [useState] cells of
    [AddressAutoComplete].  [input] is the hook state of
    [AddressAutoCompleteInput], present while that component is
    mounted.  [blurTimers] holds the deadlines of the pending
    [setTimeout(() => setIsOpen(false), 200)] calls. *)
Record State := mkState {
  address : AddressType;
  searchInput : string;
  committed : list AddressType;
  selectedPlaceId : string;
  isLocating : bool;
  isOpen : bool;
  input : option Debounce.Hook;
  cache : gmap string Entry;
  clock : nat;
  blurTimers : list nat
}.

Definition setAddress (a : AddressType) (st : State) : State :=
  mkState a (searchInput st) (a :: committed st) (selectedPlaceId st)
    (isLocating st) (isOpen st) (input st) (cache st) (clock st) (blurTimers st).

Definition setSearchInput (s : string) (st : State) : State :=
  mkState (address st) s (committed st) (selectedPlaceId st)
    (isLocating st) (isOpen st) (input st) (cache st) (clock st) (blurTimers st).

Definition setSelectedPlaceId (id : string) (st : State) : State :=
  mkState (address st) (searchInput st) (committed st) id
    (isLocating st) (isOpen st) (input st) (cache st) (clock st) (blurTimers st).

Definition setIsLocating (b : bool) (st : State) : State :=
  mkState (address st) (searchInput st) (committed st) (selectedPlaceId st)
    b (isOpen st) (input st) (cache st) (clock st) (blurTimers st).

Definition setIsOpen (b : bool) (st : State) : State :=
  mkState (address st) (searchInput st) (committed st) (selectedPlaceId st)
    (isLocating st) b (input st) (cache st) (clock st) (blurTimers st).

Definition withInput (h : option Debounce.Hook) (st : State) : State :=
  mkState (address st) (searchInput st) (committed st) (selectedPlaceId st)
    (isLocating st) (isOpen st) h (cache st) (clock st) (blurTimers st).

Definition withCache (c : gmap string Entry) (st : State) : State :=
  mkState (address st) (searchInput st) (committed st) (selectedPlaceId st)
    (isLocating st) (isOpen st) (input st) c (clock st) (blurTimers st).

Definition withClock (now : nat) (st : State) : State :=
  mkState (address st) (searchInput st) (committed st) (selectedPlaceId st)
    (isLocating st) (isOpen st) (input st) (cache st) now (blurTimers st).

Definition withBlurTimers (l : list nat) (st : State) : State :=
  mkState (address st) (searchInput st) (committed st) (selectedPlaceId st)
    (isLocating st) (isOpen st) (input st) (cache st) (clock st) l.

(** *** What a render computes *)

(** [address.formattedAddress ? ... : ...]: which branch is rendered. *)
Definition committedMode (st : State) : bool :=
  truthy (formattedAddress (address st)).

(** [selectedPlaceId === "" ? null : selectedPlaceId] *)
Definition detailKey (st : State) : option string :=
  if String.eqb (selectedPlaceId st) "" then None else Some (selectedPlaceId st).

(** [debouncedSearchInput ? debouncedSearchInput : null]; there is no
    such hook while [AddressAutoCompleteInput] is not mounted. *)
Definition suggestionKey (st : State) : option string :=
  match input st with
  | Some h =>
      if truthy (Debounce.debouncedValue h)
      then Some (Debounce.debouncedValue h) else None
  | None => None
  end.

(** [data] of the detail hook. *)
Definition detailData (st : State) : option Data :=
  hookData (cache st) (detailKey st).

(** [data?.suggestions || []] *)
Definition predictions (st : State) : list Suggestion :=
  match hookData (cache st) (suggestionKey st) with
  | Some (SuggestionsData l) => l
  | _ => []
  end.

Definition isSuggestionsLoading (st : State) : bool :=
  hookIsLoading (cache st) (suggestionKey st).

(** The body of the dropdown. *)
Inductive ListBody :=
| Spinner
| Items (items : list Suggestion) (message : option string).

(** The rendered tree, reduced to what depends on state: the value of
    the text input and, for [AddressAutoCompleteInput], the state of the
    locate button when shown, whether the inline error is shown, and the
    dropdown when open. *)
Inductive View :=
| CommittedView (value : string)
| InputView (value : string) (locating : option bool) (inlineError : bool)
    (dropdown : option ListBody).

Definition view (cfg : Config) (st : State) : View :=
  if committedMode st then
    CommittedView (or_else (searchInput st) (formattedAddress (address st)))
  else
    InputView (searchInput st)
      (if showLocationIcon cfg then Some (isLocating st) else None)
      (negb (String.eqb (searchInput st) "") && negb (isOpen st)
         && negb (truthy (selectedPlaceId st)) && showInlineError cfg)
      (if isOpen st then
         Some (if isSuggestionsLoading st then Spinner
               else Items (predictions st)
                      (if length (predictions st) =? 0 then
                         Some (if String.eqb (searchInput st) ""
                               then "Please enter an address"
                               else "No address found")
                       else None))
       else None).

(** *** Effects run after a state change *)

(** The effect [if (data?.address) setAddress(data.address)] with
    dependency [data]: it runs when [data] differs from the [data] of
    the previous render, [before].  swr keeps the object of an entry
    when a request resolves to a deep-equal value, so the comparison is
    by value here; [setAddress] is taken to be a stable function, as the
    setter of the host's [useState] is. *)
Definition addressEffect (before : option Data) (st : State) : State :=
  if decide (detailData st = before) then st
  else match detailData st with
       | Some (AddressData a) => setAddress a st
       | _ => st
       end.

(** [AddressAutoCompleteInput] is rendered in the uncommitted branch
    only: it is unmounted (its timer cleared) when the address becomes
    committed, mounted afresh when it stops being so, and re-rendered
    with the current [searchInput] otherwise. *)
Definition syncInput (st : State) : State :=
  if committedMode st then withInput None st
  else withInput
         (Some (Debounce.useDebounce (clock st) (searchInput st) (Some 500) (input st)))
         st.

Definition rerender (before : option Data) (st : State) : State :=
  syncInput (addressEffect before st).

(** *** Events *)

Inductive Event :=
(* the input and the clear button of the committed branch *)
| CommittedInputChange (v : string)
| CommittedInputFocus
| ClearClick
(* AddressAutoCompleteInput *)
| InputChange (v : string)
| InputFocus
| InputBlur
| InputKeyDown (key : string)
| PredictionClick (prediction : Suggestion)
| LocateClick (geolocationSupported : bool)
(* callbacks of navigator.geolocation.getCurrentPosition *)
| PositionSuccess (lat lng : number)
| PositionError
(* the awaited geocoder.geocode settles *)
| GeocodeSettled (outcome : GeocodeOutcome)
(* a request issued by one of the two useSWR hooks settles *)
| SuggestionsSettled (key : string) (outcome : option (list AutocompletePrediction))
| DetailsSettled (key : string) (outcome : DetailsOutcome)
(* swr issues a further request for a key: an error retry or a revalidation *)
| RequestStarted (key : string)
(* time passes *)
| ClockAdvance (now : nat).

(** A user event can happen only on an element that is rendered (and,
    for the locate button, not disabled); callbacks can always run. *)
Definition enabled (cfg : Config) (st : State) (e : Event) : bool :=
  match e with
  | CommittedInputChange _ | CommittedInputFocus | ClearClick => committedMode st
  | InputChange _ | InputFocus | InputBlur | InputKeyDown _ => negb (committedMode st)
  | PredictionClick p =>
      negb (committedMode st) && isOpen st && negb (isSuggestionsLoading st)
      && bool_decide (p ∈ predictions st)
  | LocateClick _ =>
      negb (committedMode st) && showLocationIcon cfg && negb (isLocating st)
  | _ => true
  end.

(** A settled request writes the cache entry of its key. *)
Definition settleCache (k : string) (result : option Data)
    (c : gmap string Entry) : gmap string Entry :=
  match result with
  | Some d => fulfil k d c
  | None => reject k c
  end.

Definition settle (k : string) (result : option Data) (st : State) : State :=
  withCache (settleCache k result (cache st)) st.

(** The timers due at [now] run: the debounce timer of the mounted
    input and the blur timers. *)
Definition fireTimers (now : nat) (st : State) : State :=
  let st1 := withInput (option_map (fun h => fst (Debounce.advance now h)) (input st)) st in
  let st2 :=
    if existsb (fun deadline => deadline <=? now) (blurTimers st1)
    then setIsOpen false st1 else st1 in
  withBlurTimers (filter (fun deadline => now < deadline) (blurTimers st2)) st2.

(** The synchronous part of [handleLocationDetect]: nothing happens
    without [navigator.geolocation]; otherwise [isLocating] is set and
    the position is requested. *)
Definition handleLocationDetect (geolocationSupported : bool) (st : State) : State :=
  if geolocationSupported then setIsLocating true st else st.

(** The success callback of the position request after its awaited
    geocode has settled: the [try] body uses the first result if there is
    one, [catch] only logs, and [finally] clears [isLocating]. *)
Definition geocodeSettled (outcome : GeocodeOutcome) (st : State) : State :=
  let st1 :=
    match outcome with
    | GeocodeResults (id :: _) => setSelectedPlaceId id st
    | _ => st
    end in
  setIsLocating false st1.

(** The state updates made by the handler of each event. *)
Definition handle (st : State) (e : Event) : State :=
  match e with
  | CommittedInputChange v =>
      let st1 := setSearchInput v st in
      if truthy v then st1
      else setAddress emptyAddress (setSelectedPlaceId "" st1)
  | CommittedInputFocus =>
      let st1 :=
        if truthy (searchInput st) then st
        else setSearchInput (formattedAddress (address st)) st in
      setIsOpen true st1
  | ClearClick =>
      setSearchInput "" (setAddress emptyAddress (setSelectedPlaceId "" st))
  | InputChange v => setSearchInput v st
  | InputFocus => setIsOpen true st
  | InputBlur => withBlurTimers ((clock st + 200) :: blurTimers st) st
  | InputKeyDown key =>
      if String.eqb key "Escape" then setIsOpen false st else st
  | PredictionClick p =>
      setIsOpen false (setSelectedPlaceId (place p) (setSearchInput (text p) st))
  | LocateClick supported => handleLocationDetect supported st
  | PositionSuccess _ _ => st
  | PositionError => setIsLocating false st
  | GeocodeSettled outcome => geocodeSettled outcome st
  | SuggestionsSettled k o => settle k (suggestionFetcher o) st
  | DetailsSettled k o => settle k (detailFetcher o) st
  | RequestStarted k => withCache (startRequest k (cache st)) st
  | ClockAdvance now =>
      let now' := Nat.max (clock st) now in
      fireTimers now' (withClock now' st)
  end.

(** One event: the handler runs, then the component re-renders and its
    effects run. *)
Definition step (cfg : Config) (st : State) (e : Event) : State :=
  if enabled cfg st e then rerender (detailData st) (handle st e) else st.

Definition run (cfg : Config) (st : State) (es : list Event) : State :=
  fold_left (step cfg) es st.

(** The first render, with the host's initial [address] and
    [searchInput], on a page whose swr cache is still empty. *)
Definition init (a : AddressType) (s : string) : State :=
  rerender None (mkState a s [] "" false false None ∅ 0 []).

Inductive reachable (cfg : Config) : State → Prop :=
| reachable_init a s : reachable cfg (init a s)
| reachable_step st e : reachable cfg st → reachable cfg (step cfg st e).

(** What the user and the host can see of a state. *)
Definition observable (cfg : Config) (st : State)
    : View * AddressType * string * list AddressType * list Suggestion :=
  (view cfg st, address st, searchInput st, committed st, predictions st).

(** The key of a settling request. *)
Definition responseKey (e : Event) : option string :=
  match e with
  | SuggestionsSettled k _ | DetailsSettled k _ => Some k
  | _ => None
  end.

(** A response for a key that is the active key of neither hook. *)
Definition stale (st : State) (e : Event) : Prop :=
  ∃ k, responseKey e = Some k ∧ detailKey st ≠ Some k ∧ suggestionKey st ≠ Some k.

End Widget.

(** * Vocabulary of the statements *)

Import JS Address SWR Widget.

(** ** Address extraction *)

(** No component of [components] carries [type]. *)
Definition component_missing (components : option (list GeocoderAddressComponent))
    (type : string) : Prop :=
  match components with
  | None => True
  | Some cs => ∀ c, c ∈ cs → type ∉ types c
  end.

(** [c] is the first component of [components] that carries [type]. *)
Definition first_component (components : option (list GeocoderAddressComponent))
    (type : string) (c : GeocoderAddressComponent) : Prop :=
  ∃ before after,
    components = Some (before ++ c :: after)
    ∧ type ∈ types c
    ∧ ∀ c', c' ∈ before → type ∉ types c'.

(** The string a component contributes: the requested name of the first
    component with the type, the empty string when there is none. *)
Definition component_value (components : option (list GeocoderAddressComponent))
    (type : string) (format : NameFormat) (s : string) : Prop :=
  (∃ c, first_component components type c ∧ s = component_name format c)
  ∨ (component_missing components type ∧ s = "").

(** ** Bursts of values reaching the debounce hook *)

(** Each value of the burst after the first arrives no earlier than the
    previous one and before the previous one's timer (armed [w]
    milliseconds after its arrival) is due, and differs from it. *)
Fixpoint within_window (w : nat) (t0 : nat) (v0 : string)
    (burst : list (nat * string)) : Prop :=
  match burst with
  | [] => True
  | (t, v) :: rest => t0 ≤ t ∧ t < t0 + w ∧ v ≠ v0 ∧ within_window w t v rest
  end.

(** A burst arriving at hook [h]: its first value is new and arrives
    before a timer still pending in [h] is due. *)
Definition quiet_burst (d : option nat) (h : Debounce.Hook) (burst : list (nat * string)) : Prop :=
  match burst with
  | [] => False
  | (t, v) :: rest =>
      v ≠ Debounce.value h
      ∧ match Debounce.timer h with Some (deadline, _) => t < deadline | None => True end
      ∧ within_window (Debounce.delayMs d) t v rest
  end.

(** ** States and event histories of the component *)

(** A detail request that fails: something throws, the status is not
    [OK], or there is no result. *)
Definition details_failed (o : DetailsOutcome) : Prop :=
  match o with
  | DetailsThrew => True
  | DetailsCallback result status => status ≠ OK ∨ result = None
  end.

(** The mounted input agrees with the rendered branch and the current
    search text: rendering again changes nothing. *)
Definition rendered (st : State) : Prop := syncInput st = st.

(** The address is the one of the detail hook's data whenever that data
    holds an address. *)
Definition address_follows_data (st : State) : Prop :=
  ∀ a, detailData st = Some (AddressData a) → address st = a.

(** The key and the fetcher's result of a settling request. *)
Definition eventData (e : Event) : option (string * option Data) :=
  match e with
  | SuggestionsSettled k o => Some (k, suggestionFetcher o)
  | DetailsSettled k o => Some (k, detailFetcher o)
  | _ => None
  end.

(** The data of the last request for [k] in [es] that resolved. *)
Definition lastData (k : string) (es : list Event) : option Data :=
  fold_left
    (fun acc e =>
       match eventData e with
       | Some (k', Some d) => if decide (k' = k) then Some d else acc
       | _ => acc
       end) es None.

Definition latest (es : list Event) (key : option string) : option Data :=
  key ≫= (fun k => lastData k es).

(** [c] and the cache of [st] have the same entries at the active keys. *)
Definition agrees (st : State) (c : gmap string Entry) : Prop :=
  ∀ k, detailKey st = Some k ∨ suggestionKey st = Some k → c !! k = cache st !! k.

(** [a] was built from the result of a successful detail request of [es]. *)
Definition resolved (es : list Event) (a : AddressType) : Prop :=
  ∃ k r, DetailsSettled k (DetailsCallback (Some r) OK) ∈ es ∧ a = buildAddress r.

(** The events of typing a burst: the clock reaches each arrival time,
    then the uncommitted input's [onChange] runs with the value. *)
Definition typing (burst : list (nat * string)) : list Event :=
  flat_map (fun tv => [ClockAdvance tv.1; InputChange tv.2]) burst.

(** The arrival times of [burst] do not decrease, starting from [t0]. *)
Fixpoint times_from (t0 : nat) (burst : list (nat * string)) : Prop :=
  match burst with
  | [] => True
  | (t, v) :: rest => t0 ≤ t ∧ times_from t rest
  end.

(** The uncommitted input is mounted with hook state [h], rendered with
    the current search text. *)
Definition input_mounted (st : State) (h : Debounce.Hook) : Prop :=
  committedMode st = false
  ∧ input st = Some h
  ∧ Debounce.value h = searchInput st
  ∧ Debounce.delay h = Some 500.

(** ** Calls and callbacks of the bootstrap, interleaved *)

Inductive BootAction :=
| Call (apiKey : string)
| Callback (e : Bootstrap.ScriptEvent).

Definition boot_step (w : Bootstrap.World) (a : BootAction) : Bootstrap.World :=
  match a with
  | Call apiKey => (Bootstrap.loadGoogleMapsScript apiKey w).2
  | Callback e => Bootstrap.script_step w e
  end.

Definition boot_run (w : Bootstrap.World) (acts : list BootAction) : Bootstrap.World :=
  fold_left boot_step acts w.

(** The key of the first call among [acts]. *)
Fixpoint first_call (acts : list BootAction) : option string :=
  match acts with
  | [] => None
  | Call apiKey :: _ => Some apiKey
  | Callback _ :: rest => first_call rest
  end.

(** ** Slow bursts *)

(** Each value of the burst after the first arrives once the timer of the
    previous one (armed [w] milliseconds after its arrival) is due, and
    differs from it. *)
Fixpoint spaced (w : nat) (t0 : nat) (v0 : string)
    (burst : list (nat * string)) : Prop :=
  match burst with
  | [] => True
  | (t, v) :: rest => t0 + w ≤ t ∧ v ≠ v0 ∧ spaced w t v rest
  end.

(** A slow burst arriving at hook [h]: its first value is new and arrives
    before a timer still pending in [h] is due. *)
Definition slow_burst (d : option nat) (h : Debounce.Hook)
    (burst : list (nat * string)) : Prop :=
  match burst with
  | [] => False
  | (t, v) :: rest =>
      v ≠ Debounce.value h
      ∧ match Debounce.timer h with Some (deadline, _) => t < deadline | None => True end
      ∧ spaced (Debounce.delayMs d) t v rest
  end.

(** ** The cache without its errors *)

(** The cache with the error of every entry cleared. *)
Definition forgetErrors (c : gmap string Entry) : gmap string Entry :=
  (fun e => {| data := data e; error := false; isLoading := isLoading e |}) <$> c.

(** ** Kinds of events *)

(** Callbacks: they run without a user action on a rendered element. *)
Definition isCallback (e : Event) : bool :=
  match e with
  | PositionSuccess _ _ | PositionError | GeocodeSettled _
  | SuggestionsSettled _ _ | DetailsSettled _ _ | ClockAdvance _ => true
  | _ => false
  end.

(** The events whose handler calls [setSelectedPlaceId]. *)
Definition setsSelection (e : Event) : bool :=
  match e with
  | CommittedInputChange _ | ClearClick | PredictionClick _ | GeocodeSettled _ => true
  | _ => false
  end.

(** * Properties *)

(** ** Address extraction *)

Lemma includes_elem_of x l : includes x l = true ↔ x ∈ l.
Proof.
  unfold includes. rewrite existsb_exists. split.
  - intros (y & Hy & Heq). apply String.eqb_eq in Heq. subst y.
    by apply list_elem_of_In.
  - intros H. exists x. split; [by apply list_elem_of_In | apply String.eqb_refl].
Qed.

Lemma find_first_split {A} (f : A → bool) (l : list A) :
  match List.find f l with
  | Some x => ∃ before after,
      l = before ++ x :: after ∧ f x = true ∧ ∀ y, y ∈ before → f y = false
  | None => ∀ y, y ∈ l → f y = false
  end.
Proof.
  induction l as [|a l IH]; simpl.
  - intros y Hy. by apply not_elem_of_nil in Hy.
  - destruct (f a) eqn:Hfa.
    + exists [], l. split; [done|]. split; [done|].
      intros y Hy. by apply not_elem_of_nil in Hy.
    + destruct (List.find f l) as [x|].
      * destruct IH as (before & after & -> & Hx & Hbefore).
        exists (a :: before), after. split; [done|]. split; [done|].
        intros y Hy. apply elem_of_cons in Hy as [->|Hy]; auto.
      * intros y Hy. apply elem_of_cons in Hy as [->|Hy]; auto.
Qed.

Lemma getAddressComponent_value components type format :
  component_value components type format (getAddressComponent components type format).
Proof.
  unfold component_value, getAddressComponent.
  destruct components as [cs|]; [|by right].
  pose proof (find_first_split (fun c => includes type (types c)) cs) as H.
  destruct (List.find _ cs) as [c|].
  - left. exists c. split; [|done].
    destruct H as (before & after & -> & Hc & Hbefore).
    exists before, after. split; [done|]. split.
    + by apply includes_elem_of.
    + intros c' Hc' Hin. apply includes_elem_of in Hin.
      rewrite (Hbefore c' Hc') in Hin. discriminate.
  - right. split; [|done]. intros c Hc Hin.
    apply includes_elem_of in Hin. rewrite (H c Hc) in Hin. discriminate.
Qed.

Lemma opt_or_else_empty (o : option string) : opt_or_else o "" = default "" o.
Proof. destruct o as [[|a s]|]; reflexivity. Qed.

(** C3: a missing component is to give the empty string, and every
    single-component field does; [address1] does not.  For a place result
    with a locality but neither a street number nor a route, both
    components are missing and [address1] is a single space. *)
Lemma address1_missing_is_space :
  let r := mkPlaceResult (Some [mkComponent "Mountain View" "Mountain View" ["locality"]])
             None None in
  component_missing (address_components r) "street_number"
  ∧ component_missing (address_components r) "route"
  ∧ address1 (buildAddress r) = " "
  ∧ address1 (buildAddress r) ≠ "".
Proof.
  simpl. repeat split; try done.
  - intros c Hc. apply list_elem_of_singleton in Hc as ->. simpl.
    intros H. apply list_elem_of_singleton in H. discriminate.
  - intros c Hc. apply list_elem_of_singleton in Hc as ->. simpl.
    intros H. apply list_elem_of_singleton in H. discriminate.
Qed.

(** X3: the record built from a place result, field by field.  [address1]
    is the street number, a space and the route, each in short form and
    each the empty string when missing.  [address2] is empty.  The other
    strings come from one component each, or from the formatted address,
    and are empty when that is missing; a coordinate that is missing,
    zero or NaN gives 0. *)
Theorem buildAddress_fields (r : GooglePlaceResult) :
  let a := buildAddress r in
  let cs := address_components r in
  (∃ number route,
      component_value cs "street_number" ShortName number
      ∧ component_value cs "route" ShortName route
      ∧ address1 a = String.append (String.append number " ") route)
  ∧ address2 a = ""
  ∧ component_value cs "locality" LongName (city a)
  ∧ component_value cs "administrative_area_level_1" ShortName (region a)
  ∧ component_value cs "postal_code" ShortName (postalCode a)
  ∧ component_value cs "country" LongName (country a)
  ∧ formattedAddress a = default "" (formatted_address r)
  ∧ lat a = match geometry_lat r with
            | Some v => if number_truthy v then v else zero
            | None => zero
            end
  ∧ lng a = match geometry_lng r with
            | Some v => if number_truthy v then v else zero
            | None => zero
            end.
Proof.
  simpl. split.
  { eexists _, _. split; [apply getAddressComponent_value|].
    split; [apply getAddressComponent_value|]. reflexivity. }
  split; [reflexivity|].
  do 4 (split; [apply getAddressComponent_value|]).
  split; [apply opt_or_else_empty|].
  split; reflexivity.
Qed.

(** ** The bootstrap promise *)

Import Bootstrap.

Lemma settle_fields p s w :
  googleMapsPromise (Bootstrap.settle p s w) = googleMapsPromise w
  ∧ headScripts (Bootstrap.settle p s w) = headScripts w.
Proof. unfold Bootstrap.settle. by destruct (promises w !! p) as [[]|]. Qed.

Lemma settle_rejected p q s w :
  promises w !! q = Some Rejected →
  promises (Bootstrap.settle p s w) !! q = Some Rejected.
Proof.
  intros Hq. unfold Bootstrap.settle.
  destruct (promises w !! p) as [[]|] eqn:Hp; simpl; try done.
  destruct (decide (p = q)) as [->|Hne]; [congruence|].
  by rewrite list_lookup_insert_ne.
Qed.

Lemma script_step_fields w e :
  googleMapsPromise (script_step w e) = googleMapsPromise w
  ∧ headScripts (script_step w e) = headScripts w.
Proof.
  destruct e as [p|p]; simpl; [|apply settle_fields].
  match goal with
  | |- context [Bootstrap.settle p Fulfilled ?w'] =>
      by destruct (settle_fields p Fulfilled w') as [-> ->]
  end.
Qed.

Lemma script_run_fields es : ∀ w,
  googleMapsPromise (script_run w es) = googleMapsPromise w
  ∧ headScripts (script_run w es) = headScripts w.
Proof.
  induction es as [|e es IH]; intros w; [done|].
  unfold script_run in *. simpl.
  destruct (IH (script_step w e)) as [-> ->]. apply script_step_fields.
Qed.

Lemma script_run_rejected es : ∀ w q,
  promises w !! q = Some Rejected →
  promises (script_run w es) !! q = Some Rejected.
Proof.
  induction es as [|e es IH]; intros w q Hq; [done|].
  unfold script_run in *. simpl. apply IH.
  destruct e; simpl; by apply settle_rejected.
Qed.

Lemma loadGoogleMapsScript_sets apiKey w :
  googleMapsPromise (loadGoogleMapsScript apiKey w).2
  = Some (loadGoogleMapsScript apiKey w).1.
Proof.
  unfold loadGoogleMapsScript.
  destruct (googleMapsPromise w) eqn:H; [done|].
  by destruct (windowGoogleMaps w).
Qed.

(** C10: the promise is memoized by the first call whatever the
    argument.  A second call, with any key and after any script
    callbacks, returns the reference the first call returned, changes
    nothing and appends no script element; once that promise is rejected
    it stays rejected, through later callbacks and calls alike. *)
Theorem loadGoogleMapsScript_memoized (w : World) (key1 key2 : string)
    (es es' : list ScriptEvent) :
  let first := loadGoogleMapsScript key1 w in
  let w2 := script_run first.2 es in
  let second := loadGoogleMapsScript key2 w2 in
  second.1 = first.1
  ∧ second.2 = w2
  ∧ headScripts second.2 = headScripts first.2
  ∧ (promises w2 !! first.1 = Some Rejected →
     promises (script_run second.2 es') !! second.1 = Some Rejected
     ∧ headScripts (script_run second.2 es') = headScripts first.2).
Proof.
  intros first w2 second.
  pose proof (loadGoogleMapsScript_sets key1 w) as Hset. fold first in Hset.
  destruct (script_run_fields es first.2) as [Hp Hs]. fold w2 in Hp, Hs.
  assert (second = (first.1, w2)) as Hsecond.
  { unfold second, loadGoogleMapsScript. by rewrite Hp, Hset. }
  rewrite Hsecond. simpl. repeat split; try done.
  - by apply script_run_rejected.
  - destruct (script_run_fields es' w2) as [_ ->]. done.
Qed.

(** A failed load with one key followed by a call with another key. *)
Lemma loadGoogleMapsScript_memoized_witness :
  let w := Bootstrap.initial false in
  let first := loadGoogleMapsScript "key-one" w in
  let w2 := script_run first.2 [Onerror 0] in
  let second := loadGoogleMapsScript "key-two" w2 in
  promises w2 !! first.1 = Some Rejected
  ∧ second.1 = first.1
  ∧ promises (script_run second.2 [Onload 0]) !! second.1 = Some Rejected
  ∧ headScripts (script_run second.2 [Onload 0])
    = ["https://maps.googleapis.com/maps/api/js?key=key-one&libraries=places"].
Proof.
  intros w first w2 second.
  assert (promises w2 !! first.1 = Some Rejected) as Hrej by reflexivity.
  destruct (loadGoogleMapsScript_memoized w "key-one" "key-two" [Onerror 0] [Onload 0])
    as (H1 & _ & _ & H4).
  destruct (H4 Hrej) as [H5 H6].
  split; [exact Hrej|]. split; [exact H1|]. split; [exact H5|].
  etrans; [exact H6|]. reflexivity.
Defined.

(** ** The debounce hook *)

Import Debounce.

Lemma advance_not_due now h deadline v :
  timer h = Some (deadline, v) → now < deadline → advance now h = (h, []).
Proof.
  intros Ht Hlt. unfold advance. rewrite Ht.
  destruct (deadline <=? now) eqn:Hdue; [apply Nat.leb_le in Hdue; lia|done].
Qed.

Lemma advance_due now h deadline v :
  timer h = Some (deadline, v) → deadline ≤ now →
  advance now h = (mkHook v (value h) (delay h) None, [v]).
Proof.
  intros Ht Hle. unfold advance. rewrite Ht.
  destruct (deadline <=? now) eqn:Hdue; [done|apply Nat.leb_gt in Hdue; lia].
Qed.

Lemma render_new now v d h :
  v ≠ value h →
  render now v d h = mkHook (debouncedValue h) v d (Some (now + delayMs d, v)).
Proof.
  intros Hne. unfold render.
  rewrite bool_decide_eq_false_2; [done|]. by intros [? _].
Qed.

Lemma run_cons d h t v rest :
  run d h ((t, v) :: rest)
  = ((run d (render t v d (advance t h).1) rest).1,
     (advance t h).2 ++ (run d (render t v d (advance t h).1) rest).2).
Proof.
  simpl. destruct (advance t h) as [h1 out1]. simpl.
  by destruct (run d (render t v d h1) rest).
Qed.

Lemma run_armed d : ∀ burst t0 v0 dv tn vn,
  within_window (delayMs d) t0 v0 burst →
  last ((t0, v0) :: burst) = Some (tn, vn) →
  run d (mkHook dv v0 d (Some (t0 + delayMs d, v0))) burst
  = (mkHook dv vn d (Some (tn + delayMs d, vn)), []).
Proof.
  induction burst as [|[t v] rest IH]; intros t0 v0 dv tn vn Hw Hlast.
  - simpl in *. by simplify_eq.
  - destruct Hw as (Hle & Hlt & Hne & Hrest).
    change (last ((t0, v0) :: (t, v) :: rest)) with (last ((t, v) :: rest)) in Hlast.
    rewrite run_cons.
    rewrite (advance_not_due t _ (t0 + delayMs d) v0) by done.
    cbn [fst snd]. rewrite render_new by done. cbn [debouncedValue].
    by rewrite (IH t v dv tn vn Hrest Hlast).
Qed.

Lemma run_quiet d h burst tn vn :
  quiet_burst d h burst →
  last burst = Some (tn, vn) →
  run d h burst = (mkHook (debouncedValue h) vn d (Some (tn + delayMs d, vn)), []).
Proof.
  destruct burst as [|[t v] rest]; [done|].
  intros (Hne & Htimer & Hw) Hlast.
  rewrite run_cons.
  assert (advance t h = (h, [])) as ->.
  { destruct (timer h) as [[deadline v']|] eqn:Ht.
    - by apply (advance_not_due t h deadline v').
    - unfold advance. by rewrite Ht. }
  cbn [fst snd]. rewrite render_new by done.
  by rewrite (run_armed d rest t v (debouncedValue h) tn vn Hw Hlast).
Qed.

(** C7: for a burst of values in which each arrives before the timer of
    the one before is due, [setDebouncedValue] is not called while the
    clock is short of the last arrival plus the delay, and from then on
    has been called exactly once, with the last value; the delay is 500
    milliseconds when none is given. *)
Theorem useDebounce_emits_last (d : option nat) (h : Hook)
    (burst : list (nat * string)) (tn : nat) (vn : string) (final : nat) :
  quiet_burst d h burst →
  last burst = Some (tn, vn) →
  (final < tn + delayMs d →
     (run_until d h burst final).2 = []
     ∧ debouncedValue (run_until d h burst final).1 = debouncedValue h)
  ∧ (tn + delayMs d ≤ final →
     (run_until d h burst final).2 = [vn]
     ∧ debouncedValue (run_until d h burst final).1 = vn)
  ∧ delayMs None = 500.
Proof.
  intros Hq Hlast. unfold run_until. rewrite (run_quiet d h burst tn vn Hq Hlast).
  split; [|split; [|reflexivity]]; intros Hfinal.
  - by rewrite (advance_not_due final _ (tn + delayMs d) vn).
  - by rewrite (advance_due final _ (tn + delayMs d) vn).
Qed.

(** Typing "1", "12", "123" at 0, 100 and 250 ms into a freshly mounted
    empty input: nothing is emitted by 749 ms, "123" alone by 750 ms. *)
Lemma useDebounce_emits_last_witness :
  let h := mount 0 "" None in
  let burst := [(0, "1"); (100, "12"); (250, "123")] in
  ((run_until None h burst 749).2 = []
   ∧ debouncedValue (run_until None h burst 749).1 = "")
  ∧ ((run_until None h burst 750).2 = ["123"]
     ∧ debouncedValue (run_until None h burst 750).1 = "123").
Proof.
  intros h burst.
  assert (quiet_burst None h burst) as Hq.
  { simpl. repeat split; (done || lia). }
  assert (last burst = Some (250, "123")) as Hlast by reflexivity.
  destruct (useDebounce_emits_last None h burst 250 "123" 749 Hq Hlast) as (H1 & _ & _).
  destruct (useDebounce_emits_last None h burst 250 "123" 750 Hq Hlast) as (_ & H2 & _).
  split; [apply H1 | apply H2]; simpl; lia.
Defined.

(** ** The component *)

Import SWR Widget.

Lemma syncInput_fields st :
  address (syncInput st) = address st
  ∧ searchInput (syncInput st) = searchInput st
  ∧ committed (syncInput st) = committed st
  ∧ selectedPlaceId (syncInput st) = selectedPlaceId st
  ∧ isLocating (syncInput st) = isLocating st
  ∧ isOpen (syncInput st) = isOpen st
  ∧ cache (syncInput st) = cache st.
Proof. unfold syncInput. by destruct (committedMode st), (input st). Qed.

Lemma syncInput_committedMode st :
  committedMode (syncInput st) = committedMode st.
Proof. unfold syncInput. by destruct (committedMode st) eqn:H, (input st). Qed.

Lemma syncInput_detailData st : detailData (syncInput st) = detailData st.
Proof. unfold syncInput. by destruct (committedMode st), (input st). Qed.

Lemma addressEffect_same before st :
  detailData st = before → addressEffect before st = st.
Proof. intros H. unfold addressEffect. by rewrite decide_True. Qed.

Lemma addressEffect_no_address before st :
  (∀ a, detailData st ≠ Some (AddressData a)) → addressEffect before st = st.
Proof.
  intros H. unfold addressEffect. destruct (decide _); [done|].
  destruct (detailData st) as [[l|a]|]; try done. by destruct (H a).
Qed.

Lemma addressEffect_cases before st :
  (addressEffect before st = st
   ∧ (detailData st = before ∨ ∀ a, detailData st ≠ Some (AddressData a)))
  ∨ (∃ a, detailData st = Some (AddressData a) ∧ detailData st ≠ before
        ∧ addressEffect before st = setAddress a st).
Proof.
  unfold addressEffect. destruct (decide (detailData st = before)) as [Heq|Hne].
  - left. auto.
  - destruct (detailData st) as [[l|a]|] eqn:Hd.
    + left. split; [done|]. right. by intros a.
    + right. by exists a.
    + left. split; [done|]. right. by intros a.
Qed.

Lemma hookData_reject k c key : hookData (reject k c) key = hookData c key.
Proof.
  destruct key as [k'|]; [|done]. unfold hookData, reject.
  destruct (decide (k = k')) as [->|Hne].
  - by rewrite lookup_insert_eq.
  - by rewrite lookup_insert_ne.
Qed.

Lemma hookData_fulfil_eq k d c : hookData (fulfil k d c) (Some k) = Some d.
Proof. unfold hookData, fulfil. by rewrite lookup_insert_eq. Qed.

Lemma hookData_fulfil_ne k d c key :
  key ≠ Some k → hookData (fulfil k d c) key = hookData c key.
Proof.
  intros Hne. destruct key as [k'|]; [|done]. unfold hookData, fulfil.
  rewrite lookup_insert_ne; [done|]. congruence.
Qed.

Lemma detailFetcher_failed o : details_failed o ↔ detailFetcher o = None.
Proof.
  destruct o as [|[r|] []]; simpl; split; try done; intros H;
    try (by left); try (by right); try (by destruct H).
Qed.



Lemma rerender_unchanged_data before st :
  detailData st = before →
  address (rerender before st) = address st
  ∧ searchInput (rerender before st) = searchInput st
  ∧ committed (rerender before st) = committed st
  ∧ selectedPlaceId (rerender before st) = selectedPlaceId st
  ∧ isLocating (rerender before st) = isLocating st
  ∧ isOpen (rerender before st) = isOpen st
  ∧ cache (rerender before st) = cache st.
Proof.
  intros H. unfold rerender. rewrite addressEffect_same by done.
  apply syncInput_fields.
Qed.

(** C9: [isLocating] is false after the reverse geocode settles, whether
    it resolved (with or without a first result) or threw, and after the
    position request fails; a click with geolocation unsupported leaves
    it false.  After a failed position request the dropdown flag, the
    address, the list of [setAddress] calls and the selected place id are
    what they were. *)
Theorem location_detect_exits (cfg : Config) (st : State) (o : GeocodeOutcome) :
  isLocating (step cfg st (GeocodeSettled o)) = false
  ∧ isLocating (step cfg st PositionError) = false
  ∧ enabled cfg st (LocateClick false)
    && isLocating (step cfg st (LocateClick false)) = false
  ∧ isOpen (step cfg st PositionError) = isOpen st
  ∧ address (step cfg st PositionError) = address st
  ∧ committed (step cfg st PositionError) = committed st
  ∧ selectedPlaceId (step cfg st PositionError) = selectedPlaceId st.
Proof.
  assert (∀ st1, isLocating (rerender (detailData st) (setIsLocating false st1)) = false)
    as Hclear.
  { intros st1. unfold rerender.
    match goal with |- context [syncInput ?s] =>
      destruct (syncInput_fields s) as (_ & _ & _ & _ & -> & _)
    end.
    destruct (addressEffect_cases (detailData st) (setIsLocating false st1))
      as [[-> _]|(a & _ & _ & ->)]; done. }
  split; [|split; [|split]].
  - unfold step. simpl enabled. cbv iota. simpl handle. apply Hclear.
  - unfold step. simpl enabled. cbv iota. simpl handle. apply Hclear.
  - unfold step. destruct (enabled cfg st (LocateClick false)) eqn:Hen; [|done].
    simpl handle. simpl andb.
    destruct (rerender_unchanged_data (detailData st) st eq_refl)
      as (_ & _ & _ & _ & -> & _).
    simpl in Hen. by destruct (isLocating st); [rewrite !andb_false_r in Hen|].
  - unfold step. simpl enabled. cbv iota. simpl handle.
    destruct (rerender_unchanged_data (detailData st) (setIsLocating false st) eq_refl)
      as (-> & _ & -> & -> & _ & -> & _).
    done.
Qed.

(** C6: a failed detail request leaves the address, the list of
    [setAddress] calls, the selected place id, the search text and the
    rendered branch as they were: an uncommitted widget stays
    uncommitted. *)
Theorem detail_failure_keeps_address (cfg : Config) (st : State)
    (k : string) (o : DetailsOutcome) :
  details_failed o →
  let st' := step cfg st (DetailsSettled k o) in
  address st' = address st
  ∧ committed st' = committed st
  ∧ committedMode st' = committedMode st
  ∧ selectedPlaceId st' = selectedPlaceId st
  ∧ searchInput st' = searchInput st
  ∧ detailData st' = detailData st.
Proof.
  intros Hfail st'. apply detailFetcher_failed in Hfail.
  unfold st', step. simpl enabled. cbv iota. simpl handle. rewrite Hfail.
  unfold settle. simpl settleCache.
  assert (detailData (withCache (reject k (cache st)) st) = detailData st) as Hdata.
  { unfold detailData. simpl. apply hookData_reject. }
  unfold rerender. rewrite addressEffect_same by done.
  rewrite syncInput_committedMode, syncInput_detailData.
  match goal with |- context [syncInput ?s] =>
    destruct (syncInput_fields s) as (-> & -> & -> & -> & _)
  end.
  done.
Qed.

(** A detail request answered with [ZERO_RESULTS] after a selection. *)
Lemma detail_failure_keeps_address_witness :
  let cfg := mkConfig true true in
  let st := run cfg (init emptyAddress "")
              [GeocodeSettled (GeocodeResults ["ChIJD7fiBh9u5kcR"])] in
  let st' := step cfg st
               (DetailsSettled "ChIJD7fiBh9u5kcR" (DetailsCallback None ZERO_RESULTS)) in
  selectedPlaceId st = "ChIJD7fiBh9u5kcR"
  ∧ address st' = emptyAddress
  ∧ committed st' = []
  ∧ committedMode st' = false.
Proof.
  intros cfg st st'.
  assert (details_failed (DetailsCallback None ZERO_RESULTS)) as Hfail
    by (left; discriminate).
  destruct (detail_failure_keeps_address cfg st "ChIJD7fiBh9u5kcR" _ Hfail)
    as (H1 & H2 & H3 & _).
  split; [reflexivity|].
  split; [etrans; [exact H1 | reflexivity]|].
  split; [etrans; [exact H2 | reflexivity]|].
  etrans; [exact H3 | reflexivity].
Defined.

(** *** States between events *)

Lemma render_idem now v d h :
  Debounce.render now v d (Debounce.render now v d h) = Debounce.render now v d h.
Proof.
  unfold Debounce.render.
  destruct (bool_decide (v = Debounce.value h ∧ d = Debounce.delay h)) eqn:E.
  - by rewrite E.
  - simpl. by rewrite bool_decide_eq_true_2.
Qed.

Lemma render_mount now v d :
  Debounce.render now v d (Debounce.mount now v d) = Debounce.mount now v d.
Proof. unfold Debounce.render, Debounce.mount. simpl. by rewrite bool_decide_eq_true_2. Qed.

Lemma syncInput_idem st : rendered (syncInput st).
Proof.
  unfold rendered, syncInput.
  destruct (committedMode st) eqn:Hmode.
  - change (committedMode (withInput None st)) with (committedMode st). by rewrite Hmode.
  - destruct (input st) as [h|] eqn:Hin.
    + match goal with |- context [withInput ?i st] =>
        change (committedMode (withInput i st)) with (committedMode st)
      end.
      rewrite Hmode. simpl. by rewrite render_idem.
    + match goal with |- context [withInput ?i st] =>
        change (committedMode (withInput i st)) with (committedMode st)
      end.
      rewrite Hmode. simpl. by rewrite render_mount.
Qed.

Lemma syncInput_withCache c st :
  syncInput (withCache c st) = withCache c (syncInput st).
Proof.
  unfold syncInput, committedMode. simpl.
  by destruct (truthy (formattedAddress (address st))), (input st).
Qed.

Lemma rendered_withCache c st : rendered st → rendered (withCache c st).
Proof. unfold rendered. intros H. by rewrite syncInput_withCache, H. Qed.

Lemma step_rendered cfg st e : rendered st → rendered (step cfg st e).
Proof.
  intros H. unfold step. destruct (enabled cfg st e); [|done].
  apply syncInput_idem.
Qed.

Lemma init_rendered a s : rendered (init a s).
Proof. apply syncInput_idem. Qed.

Lemma reachable_rendered cfg st : reachable cfg st → rendered st.
Proof.
  induction 1 as [a s|st e _ IH]; [apply init_rendered | by apply step_rendered].
Qed.

(** A handler that changes the address also empties the selected place
    id, so the detail hook has no data afterwards. *)
Lemma handle_address st e :
  address (handle st e) = address st ∨ detailData (handle st e) = None.
Proof.
  destruct e; simpl; auto.
  - destruct (truthy v); auto.
  - destruct (truthy (searchInput st)); auto.
  - destruct (String.eqb key "Escape"); auto.
  - destruct geolocationSupported; auto.
  - destruct outcome as [|[|id ids]]; auto.
  - unfold fireTimers. simpl. destruct (existsb _ _); auto.
Qed.

Lemma rerender_follows_data before st :
  (detailData st = before → address_follows_data st) →
  address_follows_data (rerender before st).
Proof.
  intros H a. unfold rerender. rewrite syncInput_detailData.
  destruct (syncInput_fields (addressEffect before st)) as (-> & _).
  destruct (addressEffect_cases before st) as [[-> Hcase]|(a' & Hd & Hne & ->)].
  - intros Ha. destruct Hcase as [Heq|Hno]; [by apply H | by destruct (Hno a)].
  - change (detailData (setAddress a' st)) with (detailData st). simpl.
    rewrite Hd. congruence.
Qed.

Lemma step_follows_data cfg st e :
  address_follows_data st → address_follows_data (step cfg st e).
Proof.
  intros H. unfold step. destruct (enabled cfg st e); [|done].
  apply rerender_follows_data. intros Hsame a Ha.
  destruct (handle_address st e) as [->|Hnone]; [|congruence].
  apply H. congruence.
Qed.

Lemma init_follows_data a s : address_follows_data (init a s).
Proof. apply rerender_follows_data. intros _ a'. done. Qed.

Lemma reachable_follows_data cfg st : reachable cfg st → address_follows_data st.
Proof.
  induction 1 as [a s|st e _ IH]; [apply init_follows_data | by apply step_follows_data].
Qed.

(** *** Responses and the active keys *)

Lemma withCache_own st : withCache (cache st) st = st.
Proof. by destruct st. Qed.

Lemma run_snoc cfg st es e : run cfg st (es ++ [e]) = step cfg (run cfg st es) e.
Proof. unfold run. by rewrite fold_left_app. Qed.

Lemma run_reachable cfg a s es : reachable cfg (run cfg (init a s) es).
Proof.
  induction es as [|e es IH] using rev_ind; [constructor|].
  rewrite run_snoc. by constructor.
Qed.

Lemma hookData_settleCache_ne k d c key :
  key ≠ Some k → hookData (settleCache k d c) key = hookData c key.
Proof.
  intros Hne. destruct d as [d|]; unfold settleCache.
  - by apply hookData_fulfil_ne.
  - apply hookData_reject.
Qed.

Lemma hookData_settleCache_eq k d c :
  hookData (settleCache k d c) (Some k)
  = match d with Some x => Some x | None => hookData c (Some k) end.
Proof.
  destruct d as [d|]; unfold settleCache; [apply hookData_fulfil_eq | apply hookData_reject].
Qed.

Lemma settleCache_lookup_ne k d c k' :
  k ≠ k' → settleCache k d c !! k' = c !! k'.
Proof.
  intros Hne. destruct d as [d|]; simpl; unfold fulfil, reject;
    by rewrite lookup_insert_ne.
Qed.

Lemma rerender_cache before st : cache (rerender before st) = cache st.
Proof.
  unfold rerender.
  destruct (syncInput_fields (addressEffect before st)) as (_ & _ & _ & _ & _ & _ & ->).
  by destruct (addressEffect_cases before st) as [[-> _]|(a & _ & _ & ->)].
Qed.

Lemma hookData_startRequest k c key : hookData (startRequest k c) key = hookData c key.
Proof.
  destruct key as [k'|]; [|done]. unfold hookData, startRequest.
  destruct (decide (k = k')) as [->|Hne].
  - by rewrite lookup_insert_eq.
  - by rewrite lookup_insert_ne.
Qed.

Lemma handle_cache st e :
  cache (handle st e)
  = match e with
    | RequestStarted k => startRequest k (cache st)
    | _ => match eventData e with
           | Some (k, d) => settleCache k d (cache st)
           | None => cache st
           end
    end.
Proof.
  destruct e; simpl; try done.
  - by destruct (truthy v).
  - by destruct (truthy (searchInput st)).
  - by destruct (String.eqb key "Escape").
  - by destruct geolocationSupported.
  - by destruct outcome as [|[|id ids]].
  - unfold fireTimers. simpl. by destruct (existsb _ _).
Qed.

Lemma eventData_enabled cfg st e k d :
  eventData e = Some (k, d) → enabled cfg st e = true.
Proof. by destruct e. Qed.

Lemma step_cache cfg st e :
  enabled cfg st e = true →
  cache (step cfg st e)
  = match e with
    | RequestStarted k => startRequest k (cache st)
    | _ => match eventData e with
           | Some (k, d) => settleCache k d (cache st)
           | None => cache st
           end
    end.
Proof. intros Hen. unfold step. rewrite Hen, rerender_cache. apply handle_cache. Qed.

Lemma step_cache_data cfg st e k :
  hookData (cache (step cfg st e)) (Some k)
  = match eventData e with
    | Some (k', Some d) => if decide (k' = k) then Some d else hookData (cache st) (Some k)
    | _ => hookData (cache st) (Some k)
    end.
Proof.
  destruct (enabled cfg st e) eqn:Hen.
  - rewrite step_cache by done.
    assert (hookData
              (match eventData e with
               | Some (k', d) => settleCache k' d (cache st)
               | None => cache st
               end) (Some k)
            = match eventData e with
              | Some (k', Some d) =>
                  if decide (k' = k) then Some d else hookData (cache st) (Some k)
              | _ => hookData (cache st) (Some k)
              end) as Hsettled; [|by destruct e; try apply hookData_startRequest].
    destruct (eventData e) as [[k' d]|]; [|done].
    destruct (decide (k' = k)) as [->|Hne].
    + rewrite hookData_settleCache_eq. by destruct d.
    + rewrite hookData_settleCache_ne by congruence. by destruct d.
  - unfold step. rewrite Hen.
    destruct (eventData e) as [[k' d]|] eqn:He; [|done].
    by rewrite (eventData_enabled cfg st e k' d He) in Hen.
Qed.

Lemma cache_is_lastData cfg a s es k :
  hookData (cache (run cfg (init a s) es)) (Some k) = lastData k es.
Proof.
  induction es as [|e es IH] using rev_ind.
  - unfold run, init. simpl. rewrite rerender_cache. simpl. by rewrite lookup_empty.
  - rewrite run_snoc, step_cache_data, IH. unfold lastData. rewrite fold_left_app.
    simpl. by destruct (eventData e) as [[k' [d|]]|].
Qed.

Lemma stale_step cfg st c e :
  rendered st → agrees st c → stale st e →
  ∃ c', step cfg (withCache c st) e = withCache c' st ∧ agrees st c'.
Proof.
  intros Hr Hag (k & Hk & Hd & Hs).
  assert (∃ d, eventData e = Some (k, d)) as [d He].
  { destruct e; simpl in Hk; try done; simplify_eq; eauto. }
  exists (settleCache k d c). split.
  - unfold step. rewrite (eventData_enabled cfg _ e k d He).
    assert (handle (withCache c st) e = withCache (settleCache k d c) st) as ->.
    { destruct e; simpl in He; try done; by simplify_eq. }
    unfold rerender. rewrite addressEffect_same.
    + rewrite syncInput_withCache. by rewrite Hr.
    + unfold detailData. simpl. by apply hookData_settleCache_ne.
  - intros k' Hk'. rewrite settleCache_lookup_ne; [by apply Hag|].
    intros ->. by destruct Hk'.
Qed.

Lemma stale_run cfg st rs :
  rendered st → Forall (stale st) rs →
  ∀ c, agrees st c → ∃ c', run cfg (withCache c st) rs = withCache c' st ∧ agrees st c'.
Proof.
  intros Hr. induction 1 as [|e rs He _ IH]; intros c Hag.
  - by exists c.
  - destruct (stale_step cfg st c e Hr Hag He) as (c1 & Hstep & Hag1).
    destruct (IH c1 Hag1) as (c2 & Hrun & Hag2).
    exists c2. split; [|done]. unfold run in *. simpl. by rewrite Hstep.
Qed.

Lemma agrees_observable cfg st c :
  agrees st c → observable cfg (withCache c st) = observable cfg st.
Proof.
  intros Hag.
  assert (hookData c (suggestionKey st) = hookData (cache st) (suggestionKey st)) as Hdata.
  { destruct (suggestionKey st) as [k|] eqn:Hk; [|done]. simpl. rewrite Hag; auto. }
  assert (hookIsLoading c (suggestionKey st) = hookIsLoading (cache st) (suggestionKey st))
    as Hload.
  { destruct (suggestionKey st) as [k|] eqn:Hk; [|done]. simpl. rewrite Hag; auto. }
  assert (predictions (withCache c st) = predictions st) as Hpred.
  { unfold predictions. simpl. change (suggestionKey (withCache c st)) with (suggestionKey st).
    by rewrite Hdata. }
  unfold observable. rewrite Hpred. simpl.
  unfold view. change (committedMode (withCache c st)) with (committedMode st).
  destruct (committedMode st); [done|]. simpl. rewrite Hpred.
  unfold isSuggestionsLoading. simpl.
  change (suggestionKey (withCache c st)) with (suggestionKey st). by rewrite Hload.
Qed.

Lemma detailData_withCache c st :
  detailData (withCache c st) = hookData c (detailKey st).
Proof. reflexivity. Qed.

Lemma settled_step cfg st e k d :
  eventData e = Some (k, d) →
  step cfg st e = rerender (detailData st) (withCache (settleCache k d (cache st)) st).
Proof.
  intros He. unfold step. rewrite (eventData_enabled cfg st e k d He).
  destruct e; simpl in He; try done; by simplify_eq.
Qed.

(** C1 (amended): what is shown belongs to the active keys.  After any
    sequence of events, the suggestions shown are those of the last
    resolved request recorded under the current debounced query, and the
    detail hook's data is that of the last resolved request recorded
    under the current place id, with the address equal to it when it
    holds one.  Responses for keys that are active in neither hook,
    arriving in any number and order, change nothing that is shown or
    committed, and a response whose key is not the current place id never
    changes the address or calls [setAddress].  (The cache is shared: a
    response whose key is the other hook's active key is written under
    that key.) *)
Theorem stale_responses_dropped (cfg : Config) (a : AddressType) (s : string)
    (es rs : list Event) :
  let st := run cfg (init a s) es in
  Forall (stale st) rs →
  observable cfg (run cfg st rs) = observable cfg st
  ∧ predictions st
    = match latest es (suggestionKey st) with
      | Some (SuggestionsData l) => l
      | _ => []
      end
  ∧ detailData st = latest es (detailKey st)
  ∧ match latest es (detailKey st) with
    | Some (AddressData a') => address st = a'
    | _ => True
    end
  ∧ ∀ e k, responseKey e = Some k → detailKey st ≠ Some k →
      address (step cfg st e) = address st
      ∧ committed (step cfg st e) = committed st.
Proof.
  intros st Hstale.
  pose proof (run_reachable cfg a s es) as Hreach. fold st in Hreach.
  assert (∀ key, hookData (cache st) key = latest es key) as Hlatest.
  { intros [k|]; [apply cache_is_lastData | done]. }
  split; [|split; [|split; [|split]]].
  - destruct (stale_run cfg st rs (reachable_rendered cfg st Hreach) Hstale (cache st))
      as (c' & Hrun & Hag); [done|].
    rewrite withCache_own in Hrun. rewrite Hrun. by apply agrees_observable.
  - unfold predictions. by rewrite Hlatest.
  - apply Hlatest.
  - rewrite <- Hlatest.
    destruct (hookData (cache st) (detailKey st)) as [[l|a']|] eqn:Hd; try done.
    by apply (reachable_follows_data cfg st Hreach).
  - intros e k He Hk.
    assert (∃ d, eventData e = Some (k, d)) as [d Hd].
    { destruct e; simpl in He; try done; simplify_eq; eauto. }
    rewrite (settled_step cfg st e k d Hd).
    match goal with |- context [rerender ?b ?s] =>
      destruct (rerender_unchanged_data b s) as (-> & _ & -> & _)
    end; [|done].
    rewrite detailData_withCache. by apply hookData_settleCache_ne.
Qed.

(** The lookup for "12" is answered after the query has become "123" and
    after the lookup for "123" has been answered. *)
Lemma stale_responses_dropped_witness :
  let cfg := mkConfig true true in
  let es := [InputFocus; InputChange "12"; ClockAdvance 500;
             InputChange "123"; ClockAdvance 1100;
             SuggestionsSettled "123" (Some [mkPrediction "place-123" "123 Main St"])] in
  let late := [SuggestionsSettled "12" (Some [mkPrediction "place-12" "12 Elm St"])] in
  let st := run cfg (init emptyAddress "") es in
  suggestionKey st = Some "123"
  ∧ observable cfg (run cfg st late) = observable cfg st
  ∧ predictions st = [mkSuggestion "place-123" "place-123" "123 Main St"].
Proof.
  intros cfg es late st.
  assert (Forall (stale st) late) as Hstale.
  { constructor; [|constructor]. exists "12".
    split; [reflexivity|]. split; vm_compute; discriminate. }
  destruct (stale_responses_dropped cfg emptyAddress "" es late Hstale)
    as (H1 & H2 & _).
  split; [reflexivity|]. split; [exact H1|].
  etrans; [exact H2 | reflexivity].
Defined.

Lemma rerender_fields before st :
  searchInput (rerender before st) = searchInput st
  ∧ selectedPlaceId (rerender before st) = selectedPlaceId st
  ∧ isLocating (rerender before st) = isLocating st
  ∧ isOpen (rerender before st) = isOpen st.
Proof.
  unfold rerender.
  destruct (syncInput_fields (addressEffect before st))
    as (_ & -> & _ & -> & -> & -> & _).
  by destruct (addressEffect_cases before st) as [[-> _]|(a & _ & _ & ->)].
Qed.

(** C2, as stated, fails: after the query "xyz" has been debounced, a
    rejected lookup and a lookup resolving with no predictions leave the
    same observable state; both show "No address found". *)
Lemma suggestion_failure_looks_empty :
  let cfg := mkConfig true true in
  let st := run cfg (init emptyAddress "")
              [InputFocus; InputChange "xyz"; ClockAdvance 500] in
  let failed := step cfg st (SuggestionsSettled "xyz" None) in
  let empty := step cfg st (SuggestionsSettled "xyz" (Some [])) in
  suggestionKey st = Some "xyz"
  ∧ observable cfg failed = observable cfg empty
  ∧ view cfg failed
    = InputView "xyz" (Some false) false (Some (Items [] (Some "No address found"))).
Proof. vm_compute. done. Qed.

(** At the moment the answer arrives: a rejected lookup for the active
    query, with no data cached for it, and a lookup resolving with zero
    predictions leave the same observable state. *)
Lemma suggestion_failure_instant (cfg : Config) (st : State) (k : string) :
  reachable cfg st →
  suggestionKey st = Some k →
  hookData (cache st) (Some k) = None →
  let failed := step cfg st (SuggestionsSettled k None) in
  let empty := step cfg st (SuggestionsSettled k (Some [])) in
  predictions failed = []
  ∧ observable cfg failed = observable cfg empty
  ∧ hookError (cache failed) (Some k) = true
  ∧ hookError (cache empty) (Some k) = false.
Proof.
  intros Hreach Hkey Hnone failed empty.
  pose proof (reachable_rendered cfg st Hreach) as Hr.
  assert (failed = withCache (reject k (cache st)) st) as Hfailed.
  { unfold failed. rewrite (settled_step cfg st (SuggestionsSettled k None) k None eq_refl).
    unfold rerender. rewrite addressEffect_same.
    - rewrite syncInput_withCache. by rewrite Hr.
    - unfold detailData. simpl. apply hookData_reject. }
  assert (empty = withCache (fulfil k (SuggestionsData []) (cache st)) st) as Hempty.
  { unfold empty. rewrite (settled_step cfg st (SuggestionsSettled k (Some [])) k
               (Some (SuggestionsData [])) eq_refl).
    unfold rerender.
    assert (addressEffect (detailData st)
              (withCache (settleCache k (Some (SuggestionsData [])) (cache st)) st)
            = withCache (settleCache k (Some (SuggestionsData [])) (cache st)) st) as ->.
    { destruct (decide (detailKey st = Some k)) as [Heq|Hne].
      - apply addressEffect_no_address. intros a. rewrite detailData_withCache.
        unfold settleCache. rewrite Heq, hookData_fulfil_eq. done.
      - apply addressEffect_same. rewrite detailData_withCache.
        by apply hookData_fulfil_ne. }
    rewrite syncInput_withCache. by rewrite Hr. }
  rewrite Hfailed, Hempty.
  assert (predictions (withCache (reject k (cache st)) st) = []) as Hp1.
  { unfold predictions. simpl. change (suggestionKey (withCache _ st)) with (suggestionKey st).
    by rewrite Hkey, hookData_reject, Hnone. }
  assert (predictions (withCache (fulfil k (SuggestionsData []) (cache st)) st) = []) as Hp2.
  { unfold predictions. simpl. change (suggestionKey (withCache _ st)) with (suggestionKey st).
    by rewrite Hkey, hookData_fulfil_eq. }
  split; [done|]. split; [|split].
  - unfold observable. rewrite Hp1, Hp2. simpl. f_equal.
    unfold view. simpl.
    change (committedMode (withCache (reject k (cache st)) st)) with (committedMode st).
    change (committedMode (withCache (fulfil k (SuggestionsData []) (cache st)) st))
      with (committedMode st).
    destruct (committedMode st); [done|].
    rewrite Hp1, Hp2. unfold isSuggestionsLoading. simpl.
    change (suggestionKey (withCache (reject k (cache st)) st)) with (suggestionKey st).
    change (suggestionKey (withCache (fulfil k (SuggestionsData []) (cache st)) st))
      with (suggestionKey st).
    rewrite Hkey. unfold hookIsLoading, reject, fulfil. by rewrite !lookup_insert_eq.
  - simpl. unfold reject. by rewrite lookup_insert_eq.
  - simpl. unfold fulfil. by rewrite lookup_insert_eq.
Qed.

(** C4, as stated, fails: after typing "1600 Amphi", selecting the
    suggestion and a successful detail request, the address is committed
    but the input shows the suggestion's label, which is not the
    address's [formattedAddress]. *)
Lemma committed_input_shows_label :
  let cfg := mkConfig true true in
  let label := "1600 Amphitheatre Parkway, Mountain View, CA" in
  let r := mkPlaceResult
             (Some [mkComponent "Mountain View" "Mountain View" ["locality"; "political"];
                    mkComponent "California" "CA" ["administrative_area_level_1"]])
             (Some "1600 Amphitheatre Pkwy, Mountain View, CA 94043, USA") None in
  let st := run cfg (init emptyAddress "")
              [InputFocus; InputChange "1600 Amphi"; ClockAdvance 500;
               SuggestionsSettled "1600 Amphi" (Some [mkPrediction "ChIJ2eUgeAK6j4AR" label]);
               PredictionClick (mkSuggestion "ChIJ2eUgeAK6j4AR" "ChIJ2eUgeAK6j4AR" label);
               DetailsSettled "ChIJ2eUgeAK6j4AR" (DetailsCallback (Some r) OK)] in
  address st = buildAddress r
  ∧ city (address st) = "Mountain View"
  ∧ region (address st) = "CA"
  ∧ view cfg st = CommittedView label
  ∧ view cfg st ≠ CommittedView (formattedAddress (address st)).
Proof. vm_compute. repeat split; done. Qed.

(** C4 (amended): after a click on a suggestion of the open list whose
    place id is not empty, followed by a successful detail request for
    that id, the address is the one built from the result and the list
    is closed.  When its [formattedAddress] is not empty the committed
    branch is rendered and its input shows the suggestion's label if that
    is not empty, the [formattedAddress] otherwise; when it is empty the
    uncommitted branch stays. *)
Theorem select_then_resolve (cfg : Config) (st : State) (p : Suggestion)
    (r : GooglePlaceResult) :
  reachable cfg st →
  enabled cfg st (PredictionClick p) = true →
  place p ≠ "" →
  let st1 := step cfg st (PredictionClick p) in
  let st2 := step cfg st1 (DetailsSettled (place p) (DetailsCallback (Some r) OK)) in
  selectedPlaceId st2 = place p
  ∧ address st2 = buildAddress r
  ∧ searchInput st2 = text p
  ∧ isOpen st2 = false
  ∧ if truthy (formattedAddress (buildAddress r))
    then view cfg st2
         = CommittedView (or_else (text p) (formattedAddress (buildAddress r)))
    else committedMode st2 = false.
Proof.
  intros Hreach Hen Hid st1 st2.
  assert (searchInput st1 = text p ∧ selectedPlaceId st1 = place p ∧ isOpen st1 = false)
    as (Hs1 & Hp1 & Ho1).
  { unfold st1, step. rewrite Hen. simpl handle.
    match goal with |- context [rerender ?b ?s] =>
      destruct (rerender_fields b s) as (-> & -> & _ & ->)
    end. done. }
  assert (searchInput st2 = text p ∧ selectedPlaceId st2 = place p ∧ isOpen st2 = false)
    as (Hs2 & Hp2 & Ho2).
  { unfold st2. erewrite settled_step by reflexivity.
    match goal with |- context [rerender ?b ?s] =>
      destruct (rerender_fields b s) as (-> & -> & _ & ->)
    end. done. }
  assert (address st2 = buildAddress r) as Haddr.
  { apply (reachable_follows_data cfg st2); [by do 2 constructor|].
    unfold detailData, detailKey. rewrite Hp2.
    destruct (String.eqb_spec (place p) "") as [|_]; [done|].
    unfold st2. rewrite step_cache_data. simpl. by rewrite decide_True. }
  do 4 (split; [done|]).
  unfold view, committedMode. rewrite Haddr, Hs2.
  by destruct (truthy (formattedAddress (buildAddress r))).
Qed.

(** A suggestion whose label is empty: the committed input falls back to
    the formatted address. *)
Lemma select_then_resolve_witness :
  let cfg := mkConfig true true in
  let p := mkSuggestion "ChIJD7fiBh9u5kcR" "ChIJD7fiBh9u5kcR" "" in
  let r := mkPlaceResult (Some [mkComponent "Paris" "Paris" ["locality"]])
             (Some "Paris, France") None in
  let st := run cfg (init emptyAddress "")
              [InputFocus; InputChange "Par"; ClockAdvance 500;
               SuggestionsSettled "Par" (Some [mkPrediction "ChIJD7fiBh9u5kcR" ""])] in
  let st2 := step cfg (step cfg st (PredictionClick p))
               (DetailsSettled "ChIJD7fiBh9u5kcR" (DetailsCallback (Some r) OK)) in
  address st2 = buildAddress r ∧ view cfg st2 = CommittedView "Paris, France".
Proof.
  intros cfg p r st st2.
  assert (reachable cfg st) as Hreach by apply run_reachable.
  assert (enabled cfg st (PredictionClick p) = true) as Hen by reflexivity.
  assert (place p ≠ "") as Hid by discriminate.
  destruct (select_then_resolve cfg st p r Hreach Hen Hid) as (_ & H2 & _ & _ & H5).
  split; [exact H2 | exact H5].
Defined.

(** *** Every committed address comes from one result *)

Lemma resolved_snoc es e a : resolved es a → resolved (es ++ [e]) a.
Proof.
  intros (k & r & Hin & ->). exists k, r. split; [|done].
  apply elem_of_app. by left.
Qed.

Lemma eventData_address e k a :
  eventData e = Some (k, Some (AddressData a)) →
  ∃ r, e = DetailsSettled k (DetailsCallback (Some r) OK) ∧ a = buildAddress r.
Proof.
  destruct e as [| | | | | | | | | | | |k' o|k' o| |]; simpl; try done.
  - by destruct o.
  - destruct o as [|[r|] []]; simpl; try done.
    intros [= <- <-]. by exists r.
Qed.

Lemma lastData_resolved k es a :
  lastData k es = Some (AddressData a) → resolved es a.
Proof.
  induction es as [|e es IH] using rev_ind; [done|].
  unfold lastData. rewrite fold_left_app. simpl. fold (lastData k es).
  destruct (eventData e) as [[k' [d|]]|] eqn:He;
    try (intros H; by apply resolved_snoc, IH).
  destruct (decide (k' = k)) as [->|Hne];
    [|intros H; by apply resolved_snoc, IH].
  intros [= ->]. destruct (eventData_address e k a He) as (r & -> & ->).
  exists k, r. split; [|done]. apply elem_of_app. right. by apply list_elem_of_singleton.
Qed.

Lemma handle_committed st e :
  committed (handle st e) = committed st
  ∨ committed (handle st e) = emptyAddress :: committed st.
Proof.
  destruct e; simpl; auto.
  - destruct (truthy v); auto.
  - destruct (truthy (searchInput st)); auto.
  - destruct (String.eqb key "Escape"); auto.
  - destruct geolocationSupported; auto.
  - destruct outcome as [|[|id ids]]; auto.
  - unfold fireTimers. simpl. destruct (existsb _ _); auto.
Qed.

Lemma rerender_detailData before st :
  detailData (rerender before st) = detailData st.
Proof.
  unfold rerender. rewrite syncInput_detailData.
  by destruct (addressEffect_cases before st) as [[-> _]|(a & _ & _ & ->)].
Qed.

Lemma rerender_committed before st x :
  x ∈ committed (rerender before st) →
  x ∈ committed st ∨ detailData (rerender before st) = Some (AddressData x).
Proof.
  unfold rerender. rewrite syncInput_detailData.
  destruct (syncInput_fields (addressEffect before st)) as (_ & _ & -> & _).
  destruct (addressEffect_cases before st) as [[-> _]|(a & Hd & _ & ->)]; [auto|].
  simpl. intros Hx. apply elem_of_cons in Hx as [->|Hx]; [|auto].
  right. exact Hd.
Qed.

Lemma step_committed cfg st e x :
  x ∈ committed (step cfg st e) →
  x ∈ committed st ∨ x = emptyAddress
  ∨ detailData (step cfg st e) = Some (AddressData x).
Proof.
  unfold step. destruct (enabled cfg st e); [|auto].
  intros Hx. apply rerender_committed in Hx as [Hx|Hx]; [|auto].
  destruct (handle_committed st e) as [Heq|Heq]; rewrite Heq in Hx; [auto|].
  apply elem_of_cons in Hx as [->|Hx]; auto.
Qed.

(** C5: every address passed to [setAddress] in a run of the component
    is the empty address or the record built, whole, from the result of
    one successful detail request of that run. *)
Theorem committed_addresses_whole (cfg : Config) (a0 : AddressType) (s : string)
    (es : list Event) (a : AddressType) :
  a ∈ committed (run cfg (init a0 s) es) →
  a = emptyAddress ∨ resolved es a.
Proof.
  revert a. induction es as [|e es IH] using rev_ind; intros a.
  - change (run cfg (init a0 s) []) with (init a0 s). unfold init. intros Hx.
    apply rerender_committed in Hx as [Hx|Hx].
    + by apply not_elem_of_nil in Hx.
    + by rewrite rerender_detailData in Hx.
  - rewrite run_snoc. intros Hx.
    apply step_committed in Hx as [Hx|[->|Hx]].
    + destruct (IH a Hx) as [->|Hres]; [by left | right; by apply resolved_snoc].
    + by left.
    + right. rewrite <- run_snoc in Hx. unfold detailData in Hx.
      destruct (detailKey (run cfg (init a0 s) (es ++ [e]))) as [k|]; [|done].
      rewrite cache_is_lastData in Hx. by apply (lastData_resolved k).
Qed.

(** The address committed after a location detection is the one built
    from the detail result. *)
Lemma committed_addresses_whole_witness :
  let cfg := mkConfig true true in
  let r := mkPlaceResult (Some [mkComponent "Paris" "Paris" ["locality"]])
             (Some "Paris, France") None in
  let es := [GeocodeSettled (GeocodeResults ["ChIJD7fiBh9u5kcR"]);
             DetailsSettled "ChIJD7fiBh9u5kcR" (DetailsCallback (Some r) OK);
             ClearClick] in
  committed (run cfg (init emptyAddress "") es) = [emptyAddress; buildAddress r]
  ∧ (buildAddress r = emptyAddress ∨ resolved es (buildAddress r)).
Proof.
  intros cfg r es. split; [reflexivity|].
  apply (committed_addresses_whole cfg emptyAddress "" es (buildAddress r)).
  apply list_elem_of_In. right. left. reflexivity.
Defined.

(** *** Typing into the uncommitted input *)

Lemma advance_keeps now h :
  Debounce.value (Debounce.advance now h).1 = Debounce.value h
  ∧ Debounce.delay (Debounce.advance now h).1 = Debounce.delay h.
Proof.
  unfold Debounce.advance. destruct (Debounce.timer h) as [[deadline v]|]; [|done].
  by destruct (deadline <=? now).
Qed.

Lemma syncInput_mounted st h :
  committedMode st = false → input st = Some h →
  Debounce.value h = searchInput st → Debounce.delay h = Some 500 →
  syncInput st = st.
Proof.
  intros Hmode Hin Hv Hd. unfold syncInput. rewrite Hmode, Hin. simpl.
  unfold Debounce.render. rewrite bool_decide_eq_true_2 by done.
  rewrite <- Hin. by destruct st.
Qed.

Lemma clock_advance_step cfg st h t :
  input_mounted st h →
  let now := Nat.max (clock st) t in
  input_mounted (step cfg st (ClockAdvance t)) (Debounce.advance now h).1
  ∧ clock (step cfg st (ClockAdvance t)) = now.
Proof.
  intros (Hmode & Hin & Hv & Hd) now.
  destruct (advance_keeps now h) as [Hv' Hd'].
  assert (committedMode (handle st (ClockAdvance t)) = false
          ∧ input (handle st (ClockAdvance t)) = Some (Debounce.advance now h).1
          ∧ searchInput (handle st (ClockAdvance t)) = searchInput st
          ∧ clock (handle st (ClockAdvance t)) = now
          ∧ detailData (handle st (ClockAdvance t)) = detailData st)
    as (Hm1 & Hi1 & Hs1 & Hc1 & Hd1).
  { simpl handle. unfold fireTimers. simpl. rewrite Hin. simpl.
    by destruct (existsb _ _). }
  unfold step. simpl enabled. cbv iota. unfold rerender.
  rewrite addressEffect_same by done.
  rewrite (syncInput_mounted _ (Debounce.advance now h).1) by congruence.
  unfold input_mounted. repeat split; congruence.
Qed.

Lemma input_change_step cfg st h v :
  input_mounted st h →
  input_mounted (step cfg st (InputChange v))
    (Debounce.useDebounce (clock st) v (Some 500) (Some h))
  ∧ clock (step cfg st (InputChange v)) = clock st.
Proof.
  intros (Hmode & Hin & Hv & Hd).
  unfold step. simpl enabled. rewrite Hmode. simpl negb. cbv iota.
  unfold rerender. rewrite addressEffect_same by done.
  simpl handle. unfold syncInput.
  change (committedMode (setSearchInput v st)) with (committedMode st).
  rewrite Hmode. cbn [input setSearchInput clock searchInput]. rewrite Hin.
  unfold input_mounted. cbn [withInput input clock searchInput].
  change (committedMode (withInput ?i (setSearchInput v st))) with (committedMode st).
  split; [|done]. split; [done|]. split; [done|].
  unfold Debounce.useDebounce, Debounce.render.
  case_bool_decide as H.
  - destruct H as [-> _]. by split.
  - by split.
Qed.

Lemma within_window_times w burst : ∀ t0 v0,
  within_window w t0 v0 burst → times_from t0 burst.
Proof.
  induction burst as [|[t v] rest IH]; intros t0 v0; [done|].
  intros (Hle & _ & _ & Hrest). split; [done|]. by apply (IH t v).
Qed.

Lemma typing_simulates cfg burst : ∀ st h,
  input_mounted st h → times_from (clock st) burst →
  input_mounted (run cfg st (typing burst)) (Debounce.run (Some 500) h burst).1
  ∧ ∀ tn vn, last burst = Some (tn, vn) → clock (run cfg st (typing burst)) = tn.
Proof.
  induction burst as [|[t v] rest IH]; intros st h Hm Ht; [done|].
  destruct Ht as [Hle Hrest].
  destruct (clock_advance_step cfg st h t Hm) as [Hm1 Hc1].
  rewrite Nat.max_r in Hm1, Hc1 by done.
  destruct (input_change_step cfg _ _ v Hm1) as [Hm2 Hc2].
  rewrite Hc1 in Hm2, Hc2.
  rewrite run_cons. cbn [fst].
  change (run cfg st (typing ((t, v) :: rest)))
    with (run cfg (step cfg (step cfg st (ClockAdvance t)) (InputChange v)) (typing rest)).
  destruct (IH _ _ Hm2) as [Hm3 Hc3]; [by rewrite Hc2|].
  split; [exact Hm3|]. intros tn vn Hlast.
  destruct rest as [|tv rest'].
  - simpl in Hlast. simplify_eq. exact Hc2.
  - by apply (Hc3 tn vn).
Qed.

(** X26: the debounced key of the component during typing.  For a burst typed
    into the mounted uncommitted input in which each value arrives before
    the timer of the one before is due, the suggestion key is still the
    old one while the clock is short of the last arrival plus 500 ms, and
    is the last value (no key if that is empty) from then on. *)
Theorem typing_burst_key (cfg : Config) (st : State) (h : Debounce.Hook)
    (burst : list (nat * string)) (tn : nat) (vn : string) (final : nat) :
  input_mounted st h →
  times_from (clock st) burst →
  quiet_burst (Some 500) h burst →
  last burst = Some (tn, vn) →
  let st' := run cfg st (typing burst ++ [ClockAdvance final]) in
  (final < tn + 500 → suggestionKey st' = suggestionKey st)
  ∧ (tn + 500 ≤ final → suggestionKey st' = if truthy vn then Some vn else None).
Proof.
  intros Hm Ht Hq Hlast st'.
  destruct (typing_simulates cfg burst st h Hm Ht) as [Hm1 Hc1].
  specialize (Hc1 tn vn Hlast).
  pose proof (run_quiet (Some 500) h burst tn vn Hq Hlast) as Hrun.
  rewrite Hrun in Hm1. cbn [fst] in Hm1.
  destruct (clock_advance_step cfg _ _ final Hm1) as [(_ & Hin & _) _].
  rewrite Hc1 in Hin.
  unfold st'. rewrite run_snoc. unfold suggestionKey at 1 3. rewrite Hin.
  change (Debounce.delayMs (Some 500)) with 500.
  split; intros Hfinal.
  - rewrite (advance_not_due _ _ (tn + 500) vn) by (done || lia).
    cbn [fst debouncedValue]. unfold suggestionKey.
    by destruct Hm as (_ & -> & _).
  - rewrite (advance_due _ _ (tn + 500) vn) by (done || lia).
    done.
Qed.

(** Typing "1", "12", "123" at 0, 100 and 250 ms into the freshly mounted
    widget: there is no suggestion key at 749 ms, and the key is "123" at
    750 ms. *)
Lemma typing_burst_key_witness :
  let cfg := mkConfig true true in
  let st := init emptyAddress "" in
  let burst := [(0, "1"); (100, "12"); (250, "123")] in
  suggestionKey (run cfg st (typing burst ++ [ClockAdvance 749])) = None
  ∧ suggestionKey (run cfg st (typing burst ++ [ClockAdvance 750])) = Some "123".
Proof.
  intros cfg st burst.
  assert (input_mounted st (Debounce.mount 0 "" (Some 500))) as Hm by done.
  assert (times_from (clock st) burst) as Ht by (simpl; lia).
  assert (quiet_burst (Some 500) (Debounce.mount 0 "" (Some 500)) burst) as Hq.
  { simpl. repeat split; (done || lia). }
  split.
  - apply (typing_burst_key cfg st _ burst 250 "123" 749 Hm Ht Hq eq_refl). lia.
  - apply (typing_burst_key cfg st _ burst 250 "123" 750 Hm Ht Hq eq_refl). lia.
Defined.

(** * Further properties of the code *)

(** ** [getAddressComponent] and the detail fetcher *)

Lemma first_split_unique {A} (P : A → Prop) (before after b1 a1 : list A) (c c1 : A) :
  before ++ c :: after = b1 ++ c1 :: a1 →
  P c → (∀ x, x ∈ before → ¬ P x) →
  P c1 → (∀ x, x ∈ b1 → ¬ P x) →
  c1 = c.
Proof.
  revert b1. induction before as [|x before IH]; intros b1 Heq Hc Hbefore Hc1 Hb1.
  - destruct b1 as [|y b1]; simpl in Heq; injection Heq as -> Hrest; [done|].
    exfalso. apply (Hb1 y); [by left | done].
  - destruct b1 as [|y b1]; simpl in Heq; injection Heq as -> Hrest.
    + exfalso. apply (Hbefore c1); [by left | done].
    + apply (IH b1 Hrest Hc); [|done|].
      * intros z Hz. apply Hbefore. by right.
      * intros z Hz. apply Hb1. by right.
Qed.

(** X1: the first component carrying the type decides, whatever follows
    it and whatever other types it carries. *)
Theorem getAddressComponent_first_match
    (before after : list GeocoderAddressComponent) (c : GeocoderAddressComponent)
    (type : string) (format : NameFormat) :
  type ∈ types c →
  (∀ c', c' ∈ before → type ∉ types c') →
  getAddressComponent (Some (before ++ c :: after)) type format = component_name format c.
Proof.
  intros Hc Hbefore.
  destruct (getAddressComponent_value (Some (before ++ c :: after)) type format)
    as [(c1 & (b1 & a1 & Heq & Hc1 & Hb1) & ->)|[Hmiss _]].
  - f_equal. injection Heq as Heq.
    by apply (first_split_unique (fun x => type ∈ types x) before after b1 a1).
  - exfalso. apply (Hmiss c); [|done]. apply elem_of_app. right. by left.
Qed.

Lemma getAddressComponent_first_match_witness :
  getAddressComponent
    (Some [mkComponent "Mountain View" "Mountain View" ["locality"; "political"];
           mkComponent "California" "CA" ["administrative_area_level_1"; "political"];
           mkComponent "United States" "US" ["country"; "political"]])
    "political" ShortName = "Mountain View".
Proof.
  apply (getAddressComponent_first_match []
           [mkComponent "California" "CA" ["administrative_area_level_1"; "political"];
            mkComponent "United States" "US" ["country"; "political"]]
           (mkComponent "Mountain View" "Mountain View" ["locality"; "political"])).
  - simpl. right. left.
  - intros c' H. by apply not_elem_of_nil in H.
Defined.

(** X2: without components, or when no component carries the type, the
    result is the empty string for either format. *)
Theorem getAddressComponent_missing
    (components : option (list GeocoderAddressComponent))
    (type : string) (format : NameFormat) :
  component_missing components type →
  getAddressComponent components type format = "".
Proof.
  intros Hmiss.
  destruct (getAddressComponent_value components type format)
    as [(c & (b & a & -> & Hc & _) & _)|[_ ->]]; [|done].
  exfalso. apply (Hmiss c); [|done]. apply elem_of_app. right. by left.
Qed.

Lemma getAddressComponent_missing_witness :
  getAddressComponent (Some [mkComponent "France" "FR" ["country"]]) "postal_code" LongName
  = "".
Proof.
  apply getAddressComponent_missing. intros c Hc.
  apply list_elem_of_singleton in Hc as ->. simpl. intros H.
  apply list_elem_of_singleton in H. discriminate.
Defined.

(** X4: a coordinate of a built address is a truthy number or positive
    zero: never NaN and never negative zero. *)
Theorem buildAddress_coordinates (r : GooglePlaceResult) :
  (number_truthy (lat (buildAddress r)) = true ∨ lat (buildAddress r) = zero)
  ∧ (number_truthy (lng (buildAddress r)) = true ∨ lng (buildAddress r) = zero).
Proof.
  simpl. split.
  - destruct (geometry_lat r) as [v|]; simpl; [|by right].
    destruct (number_truthy v) eqn:H; [by left | by right].
  - destruct (geometry_lng r) as [v|]; simpl; [|by right].
    destruct (number_truthy v) eqn:H; [by left | by right].
Qed.

(** X5: the separator is always there, so [address1] of a built address
    is never empty and a built address never equals [emptyAddress]. *)
Theorem buildAddress_never_empty (r : GooglePlaceResult) :
  address1 (buildAddress r) ≠ "" ∧ buildAddress r ≠ emptyAddress.
Proof.
  assert (address1 (buildAddress r) ≠ "") as H.
  { simpl.
    by destruct (getAddressComponent (address_components r) "street_number" ShortName). }
  split; [done|]. intros Heq. apply H. by rewrite Heq.
Qed.

(** X6: the detail fetcher resolves exactly when the callback gets status
    [OK] with a result, and then with the address built from that
    result; a throw, any other status, or a missing result rejects. *)
Theorem detailFetcher_resolves (o : DetailsOutcome) (d : Data) :
  detailFetcher o = Some d
  ↔ ∃ r, o = DetailsCallback (Some r) OK ∧ d = AddressData (buildAddress r).
Proof.
  split.
  - destruct o as [|[r|] []]; simpl; try done. intros [= <-]. by exists r.
  - by intros (r & -> & ->).
Qed.

(** ** The bootstrap under interleaved calls and callbacks *)

Lemma settle_windowGoogleMaps p s w :
  windowGoogleMaps (Bootstrap.settle p s w) = windowGoogleMaps w.
Proof. unfold Bootstrap.settle. by destruct (promises w !! p) as [[]|]. Qed.

Lemma boot_step_keeps_promise w a :
  is_Some (googleMapsPromise w) →
  googleMapsPromise (boot_step w a) = googleMapsPromise w
  ∧ headScripts (boot_step w a) = headScripts w.
Proof.
  intros [p Hp]. destruct a as [apiKey|e]; simpl.
  - unfold loadGoogleMapsScript. by rewrite Hp.
  - apply script_step_fields.
Qed.

Lemma boot_run_cons w a acts : boot_run w (a :: acts) = boot_run (boot_step w a) acts.
Proof. reflexivity. Qed.

Lemma boot_run_keeps_scripts acts : ∀ w,
  is_Some (googleMapsPromise w) →
  headScripts (boot_run w acts) = headScripts w.
Proof.
  induction acts as [|a acts IH]; intros w Hw; [done|].
  destruct (boot_step_keeps_promise w a Hw) as [Hp Hs].
  rewrite boot_run_cons, IH; [done|]. by rewrite Hp.
Qed.

Lemma boot_run_scripts acts : ∀ w,
  googleMapsPromise w = None → headScripts w = [] →
  headScripts (boot_run w acts) = []
  ∨ ∃ apiKey, first_call acts = Some apiKey
              ∧ headScripts (boot_run w acts) = [script_src apiKey].
Proof.
  induction acts as [|a acts IH]; intros w Hp Hs; [by left|].
  rewrite boot_run_cons. destruct a as [apiKey|e]; cbn [boot_step first_call].
  - unfold loadGoogleMapsScript. rewrite Hp.
    destruct (windowGoogleMaps w); cbn [snd].
    + left. rewrite boot_run_keeps_scripts by (simpl; eauto). done.
    + right. exists apiKey. split; [done|].
      rewrite boot_run_keeps_scripts by (simpl; eauto). simpl. by rewrite Hs.
  - destruct (script_step_fields w e) as [Hp' Hs'].
    apply IH; congruence.
Qed.

Lemma boot_step_loaded w a :
  windowGoogleMaps w = true → headScripts w = [] →
  windowGoogleMaps (boot_step w a) = true ∧ headScripts (boot_step w a) = [].
Proof.
  intros Hg Hs. destruct a as [apiKey|[p|p]]; simpl.
  - unfold loadGoogleMapsScript.
    destruct (googleMapsPromise w); [done|]. by rewrite Hg.
  - rewrite settle_windowGoogleMaps.
    match goal with |- context [Bootstrap.settle p Fulfilled ?w'] =>
      destruct (settle_fields p Fulfilled w') as [_ ->]
    end. done.
  - rewrite settle_windowGoogleMaps. by destruct (settle_fields p Rejected w) as [_ ->].
Qed.

(** X8: however calls (with whatever keys) and script callbacks
    interleave from the start, at most one script element is appended to
    the document head, carrying the key of the first call; none is
    appended when the library was already present. *)
Theorem bootstrap_appends_one_script (google_present : bool) (acts : list BootAction) :
  let w := boot_run (Bootstrap.initial google_present) acts in
  (headScripts w = []
   ∨ ∃ apiKey, first_call acts = Some apiKey ∧ headScripts w = [script_src apiKey])
  ∧ if google_present then headScripts w = [] else True.
Proof.
  intros w. split; [by apply boot_run_scripts|].
  destruct google_present; [|done].
  assert (∀ acts w0, windowGoogleMaps w0 = true → headScripts w0 = [] →
                     headScripts (boot_run w0 acts) = []) as H.
  { clear. induction acts as [|a acts IH]; intros w0 Hg Hs; [done|].
    destruct (boot_step_loaded w0 a Hg Hs) as [Hg' Hs'].
    rewrite boot_run_cons. by apply IH. }
  by apply H.
Qed.

Lemma settle_final p q s s' w :
  promises w !! q = Some s' → s' ≠ Pending →
  promises (Bootstrap.settle p s w) !! q = Some s'.
Proof.
  intros Hq Hs'. unfold Bootstrap.settle.
  destruct (promises w !! p) as [[]|] eqn:Hp; simpl; try done.
  destruct (decide (p = q)) as [->|Hne]; [congruence|].
  by rewrite list_lookup_insert_ne.
Qed.

Lemma boot_step_final w a q s :
  promises w !! q = Some s → s ≠ Pending →
  promises (boot_step w a) !! q = Some s.
Proof.
  intros Hq Hs. destruct a as [apiKey|[p|p]]; simpl.
  - unfold loadGoogleMapsScript. destruct (googleMapsPromise w); [done|].
    destruct (windowGoogleMaps w); simpl; by apply lookup_app_l_Some.
  - by apply settle_final.
  - by apply settle_final.
Qed.

(** X9: a promise settles once.  After it is fulfilled or rejected, no
    later callback ([onerror] after [onload], or the reverse) and no
    later call changes its state. *)
Theorem bootstrap_promise_settles_once (w : World) (acts : list BootAction)
    (p : nat) (s : PromiseState) :
  promises w !! p = Some s →
  s ≠ Pending →
  promises (boot_run w acts) !! p = Some s.
Proof.
  revert w. induction acts as [|a acts IH]; intros w Hp Hs; [done|].
  rewrite boot_run_cons. apply IH; [|done]. by apply boot_step_final.
Qed.

(** The script loads, then its error callback fires and another call
    is made: the promise stays fulfilled. *)
Lemma bootstrap_promise_settles_once_witness :
  let w := boot_run (Bootstrap.initial false) [Call "key-one"; Callback (Onload 0)] in
  promises (boot_run w [Callback (Onerror 0); Call "key-two"]) !! 0 = Some Fulfilled.
Proof.
  intros w.
  apply (bootstrap_promise_settles_once w [Callback (Onerror 0); Call "key-two"] 0 Fulfilled).
  - reflexivity.
  - discriminate.
Defined.

(** ** Slow bursts through the debounce hook *)

Lemma run_until_cons d h t v rest final :
  Debounce.run_until d h ((t, v) :: rest) final
  = ((Debounce.run_until d (render t v d (advance t h).1) rest final).1,
     (advance t h).2 ++ (Debounce.run_until d (render t v d (advance t h).1) rest final).2).
Proof.
  unfold Debounce.run_until. rewrite run_cons.
  destruct (Debounce.run d (render t v d (advance t h).1) rest) as [h1 out1].
  cbn [fst snd]. destruct (advance final h1) as [h2 out2]. cbn [fst snd].
  by rewrite app_assoc.
Qed.

Lemma run_until_spaced d : ∀ burst t0 v0 dv tn vn final,
  spaced (delayMs d) t0 v0 burst →
  last ((t0, v0) :: burst) = Some (tn, vn) →
  tn + delayMs d ≤ final →
  Debounce.run_until d (mkHook dv v0 d (Some (t0 + delayMs d, v0))) burst final
  = (mkHook vn vn d None, v0 :: map snd burst).
Proof.
  induction burst as [|[t v] rest IH]; intros t0 v0 dv tn vn final Hsp Hlast Hfinal.
  - simpl in Hlast. simplify_eq. unfold Debounce.run_until. simpl Debounce.run.
    cbv iota. by rewrite (advance_due final _ (tn + delayMs d) vn).
  - destruct Hsp as (Hle & Hne & Hrest).
    change (last ((t0, v0) :: (t, v) :: rest)) with (last ((t, v) :: rest)) in Hlast.
    rewrite run_until_cons.
    rewrite (advance_due t _ (t0 + delayMs d) v0) by done.
    cbn [fst snd value delay]. rewrite render_new by done. cbn [debouncedValue].
    by rewrite (IH t v v0 tn vn final Hrest Hlast Hfinal).
Qed.

(** X10: slow typing.  For a burst in which each value arrives only
    after the timer of the one before has run out, [setDebouncedValue] is
    called once per value, in order, by the time the last timer is due. *)
Theorem useDebounce_emits_each (d : option nat) (h : Hook)
    (burst : list (nat * string)) (tn : nat) (vn : string) (final : nat) :
  slow_burst d h burst →
  last burst = Some (tn, vn) →
  tn + delayMs d ≤ final →
  (Debounce.run_until d h burst final).2 = map snd burst
  ∧ debouncedValue (Debounce.run_until d h burst final).1 = vn.
Proof.
  destruct burst as [|[t v] rest]; [done|].
  intros (Hne & Htimer & Hsp) Hlast Hfinal.
  rewrite run_until_cons.
  assert (advance t h = (h, [])) as ->.
  { destruct (timer h) as [[deadline v']|] eqn:Ht.
    - by apply (advance_not_due t h deadline v').
    - unfold advance. by rewrite Ht. }
  cbn [fst snd]. rewrite render_new by done.
  by rewrite (run_until_spaced d rest t v (debouncedValue h) tn vn final Hsp Hlast Hfinal).
Qed.

(** "1", "12", "123" typed at 0, 600 and 1300 ms: three emissions. *)
Lemma useDebounce_emits_each_witness :
  let h := mount 0 "" None in
  let burst := [(0, "1"); (600, "12"); (1300, "123")] in
  (Debounce.run_until None h burst 1800).2 = ["1"; "12"; "123"]
  ∧ debouncedValue (Debounce.run_until None h burst 1800).1 = "123".
Proof.
  intros h burst.
  assert (slow_burst None h burst) as Hs.
  { simpl. repeat split; (done || lia). }
  apply (useDebounce_emits_each None h burst 1300 "123" 1800 Hs eq_refl).
  simpl. lia.
Defined.

(** ** More on the component's handlers *)

Lemma syncInput_timers st :
  clock (syncInput st) = clock st ∧ blurTimers (syncInput st) = blurTimers st.
Proof. unfold syncInput. by destruct (committedMode st). Qed.

Lemma step_simple cfg st e :
  enabled cfg st e = true →
  detailData (handle st e) = detailData st →
  step cfg st e = syncInput (handle st e).
Proof.
  intros Hen Hd. unfold step, rerender. rewrite Hen. by rewrite addressEffect_same.
Qed.

Lemma fireTimers_fields now st :
  isOpen (fireTimers now st)
  = (if existsb (fun deadline => deadline <=? now) (blurTimers st) then false else isOpen st)
  ∧ searchInput (fireTimers now st) = searchInput st
  ∧ selectedPlaceId (fireTimers now st) = selectedPlaceId st
  ∧ cache (fireTimers now st) = cache st
  ∧ address (fireTimers now st) = address st
  ∧ committed (fireTimers now st) = committed st.
Proof. unfold fireTimers. simpl. by destruct (existsb _ _). Qed.

Lemma blur_step cfg st :
  committedMode st = false →
  isOpen (step cfg st InputBlur) = isOpen st
  ∧ searchInput (step cfg st InputBlur) = searchInput st
  ∧ committedMode (step cfg st InputBlur) = false
  ∧ clock (step cfg st InputBlur) = clock st
  ∧ blurTimers (step cfg st InputBlur) = (clock st + 200) :: blurTimers st.
Proof.
  intros Hmode. rewrite step_simple; [|by simpl; rewrite Hmode|done].
  rewrite syncInput_committedMode.
  match goal with |- context [syncInput ?s] =>
    destruct (syncInput_fields s) as (_ & -> & _ & _ & _ & -> & _);
    destruct (syncInput_timers s) as [-> ->]
  end.
  done.
Qed.

Lemma clock_advance_isOpen cfg st t :
  isOpen (step cfg st (ClockAdvance t))
  = (if existsb (fun deadline => deadline <=? Nat.max (clock st) t) (blurTimers st)
     then false else isOpen st)
  ∧ searchInput (step cfg st (ClockAdvance t)) = searchInput st.
Proof.
  unfold step. simpl enabled. cbv iota.
  match goal with |- context [rerender ?b ?s] =>
    destruct (rerender_fields b s) as (-> & _ & _ & ->)
  end.
  simpl handle.
  match goal with |- context [fireTimers ?n ?s] =>
    destruct (fireTimers_fields n s) as (-> & -> & _)
  end.
  done.
Qed.

(** X11: after a blur with no other blur timer pending, the dropdown
    flag keeps its value until 200 ms have passed and is false from then
    on; the search text is not touched. *)
Theorem blur_closes_after_grace (cfg : Config) (st : State) (t : nat) :
  committedMode st = false →
  blurTimers st = [] →
  let st1 := step cfg st InputBlur in
  let st2 := step cfg st1 (ClockAdvance t) in
  isOpen st1 = isOpen st
  ∧ isOpen st2 = (if clock st + 200 <=? t then false else isOpen st)
  ∧ searchInput st2 = searchInput st.
Proof.
  intros Hmode Htimers st1 st2.
  destruct (blur_step cfg st Hmode) as (Ho & Hs & _ & Hc & Hb). fold st1 in Ho, Hs, Hc, Hb.
  destruct (clock_advance_isOpen cfg st1 t) as [Ho2 Hs2]. fold st2 in Ho2, Hs2.
  split; [done|]. split; [|congruence].
  rewrite Ho2, Hb, Hc, Htimers, Ho. simpl. rewrite orb_false_r.
  destruct (clock st + 200 <=? t) eqn:Hdue.
  - apply Nat.leb_le in Hdue. rewrite (proj2 (Nat.leb_le _ _)); [done|lia].
  - apply Nat.leb_gt in Hdue. rewrite (proj2 (Nat.leb_gt _ _)); [done|lia].
Qed.

Lemma blur_closes_after_grace_witness :
  let cfg := mkConfig true true in
  let st := run cfg (init emptyAddress "") [InputFocus; InputChange "ab"] in
  isOpen st = true
  ∧ isOpen (step cfg (step cfg st InputBlur) (ClockAdvance 199)) = true
  ∧ isOpen (step cfg (step cfg st InputBlur) (ClockAdvance 200)) = false
  ∧ searchInput (step cfg (step cfg st InputBlur) (ClockAdvance 200)) = "ab".
Proof.
  intros cfg st.
  destruct (blur_closes_after_grace cfg st 199 eq_refl eq_refl) as (_ & H1 & _).
  destruct (blur_closes_after_grace cfg st 200 eq_refl eq_refl) as (_ & H2 & H3).
  split; [reflexivity|]. split; [exact H1|]. split; [exact H2 | exact H3].
Defined.

(** X12: the blur timer is never cleared.  A focus that follows the blur
    reopens the dropdown, and the timer of the blur closes it again once
    its 200 ms are over. *)
Theorem blur_timer_outlives_focus (cfg : Config) (st : State) (t : nat) :
  committedMode st = false →
  clock st + 200 ≤ t →
  isOpen (run cfg st [InputBlur; InputFocus]) = true
  ∧ isOpen (run cfg st [InputBlur; InputFocus; ClockAdvance t]) = false.
Proof.
  intros Hmode Ht.
  destruct (blur_step cfg st Hmode) as (_ & _ & Hm1 & Hc1 & Hb1).
  set (st1 := step cfg st InputBlur) in *.
  assert (step cfg st1 InputFocus = syncInput (setIsOpen true st1)) as Hst2.
  { rewrite step_simple; [done|by simpl; rewrite Hm1|done]. }
  assert (isOpen (step cfg st1 InputFocus) = true
          ∧ clock (step cfg st1 InputFocus) = clock st
          ∧ blurTimers (step cfg st1 InputFocus) = (clock st + 200) :: blurTimers st)
    as (Ho2 & Hc2 & Hb2).
  { rewrite Hst2.
    destruct (syncInput_fields (setIsOpen true st1)) as (_ & _ & _ & _ & _ & -> & _).
    destruct (syncInput_timers (setIsOpen true st1)) as [-> ->]. simpl. by rewrite Hc1, Hb1. }
  change (run cfg st [InputBlur; InputFocus]) with (step cfg st1 InputFocus).
  change (run cfg st [InputBlur; InputFocus; ClockAdvance t])
    with (step cfg (step cfg st1 InputFocus) (ClockAdvance t)).
  split; [done|].
  destruct (clock_advance_isOpen cfg (step cfg st1 InputFocus) t) as [-> _].
  rewrite Hb2, Hc2. simpl.
  rewrite (proj2 (Nat.leb_le (clock st + 200) (Nat.max (clock st) t))); [done|lia].
Qed.

Lemma blur_timer_outlives_focus_witness :
  let cfg := mkConfig true true in
  let st := run cfg (init emptyAddress "") [InputFocus; InputChange "ab"] in
  isOpen (run cfg st [InputBlur; InputFocus]) = true
  ∧ isOpen (run cfg st [InputBlur; InputFocus; ClockAdvance 200]) = false.
Proof.
  intros cfg st. apply (blur_timer_outlives_focus cfg st 200); [reflexivity|].
  simpl. lia.
Defined.

(** X13: focusing the committed input opens the dropdown flag and seeds
    an empty search text with the formatted address; the address, the
    selected place id, the [setAddress] calls and the text shown in the
    input stay as they were. *)
Theorem committed_focus_keeps_address (cfg : Config) (st : State) :
  committedMode st = true →
  let st' := step cfg st CommittedInputFocus in
  address st' = address st
  ∧ committed st' = committed st
  ∧ selectedPlaceId st' = selectedPlaceId st
  ∧ isOpen st' = true
  ∧ searchInput st' = or_else (searchInput st) (formattedAddress (address st))
  ∧ view cfg st' = view cfg st.
Proof.
  intros Hmode st'.
  assert (st' = syncInput (handle st CommittedInputFocus)) as ->.
  { unfold st'. rewrite step_simple; [done|by simpl; rewrite Hmode|].
    simpl. by destruct (truthy (searchInput st)). }
  assert (address (handle st CommittedInputFocus) = address st
          ∧ committed (handle st CommittedInputFocus) = committed st
          ∧ selectedPlaceId (handle st CommittedInputFocus) = selectedPlaceId st
          ∧ isOpen (handle st CommittedInputFocus) = true
          ∧ searchInput (handle st CommittedInputFocus)
            = or_else (searchInput st) (formattedAddress (address st)))
    as (Ha & Hc & Hp & Ho & Hs).
  { simpl. unfold or_else. by destruct (truthy (searchInput st)). }
  assert (committedMode (syncInput (handle st CommittedInputFocus)) = true) as Hm.
  { rewrite syncInput_committedMode. unfold committedMode in *. by rewrite Ha. }
  destruct (syncInput_fields (handle st CommittedInputFocus))
    as (Ha' & Hs' & Hc' & Hp' & _ & Ho' & _).
  repeat (split; [congruence|]).
  unfold view. rewrite Hm, Hmode, Hs', Ha', Hs, Ha.
  f_equal. unfold or_else.
  destruct (truthy (searchInput st)) eqn:H1; [by rewrite H1|].
  unfold committedMode in Hmode. by rewrite Hmode.
Qed.

Lemma committed_focus_keeps_address_witness :
  let cfg := mkConfig true true in
  let r := mkPlaceResult (Some [mkComponent "Paris" "Paris" ["locality"]])
             (Some "Paris, France") None in
  let st := run cfg (init emptyAddress "")
              [GeocodeSettled (GeocodeResults ["ChIJD7fiBh9u5kcR"]);
               DetailsSettled "ChIJD7fiBh9u5kcR" (DetailsCallback (Some r) OK)] in
  searchInput st = ""
  ∧ searchInput (step cfg st CommittedInputFocus) = "Paris, France"
  ∧ view cfg (step cfg st CommittedInputFocus) = CommittedView "Paris, France".
Proof.
  intros cfg r st.
  destruct (committed_focus_keeps_address cfg st eq_refl) as (_ & _ & _ & _ & H5 & H6).
  split; [reflexivity|]. split; [exact H5|]. etrans; [exact H6 | reflexivity].
Defined.

(** X14: the committed input never shows an empty text: its value is the
    search text, or the non-empty formatted address when the search text
    is empty. *)
Theorem committed_view_not_empty (cfg : Config) (st : State) :
  committedMode st = true →
  ∃ v, view cfg st = CommittedView v ∧ v ≠ "".
Proof.
  intros Hmode. unfold view. rewrite Hmode. eexists. split; [done|].
  unfold or_else, committedMode in *.
  destruct (searchInput st) as [|c s]; simpl.
  - by destruct (formattedAddress (address st)).
  - done.
Qed.

Lemma committed_view_not_empty_witness :
  let cfg := mkConfig true true in
  let r := mkPlaceResult None (Some "Paris, France") None in
  let st := run cfg (init emptyAddress "")
              [GeocodeSettled (GeocodeResults ["ChIJD7fiBh9u5kcR"]);
               DetailsSettled "ChIJD7fiBh9u5kcR" (DetailsCallback (Some r) OK)] in
  ∃ v, view cfg st = CommittedView v ∧ v ≠ "".
Proof. intros cfg r st. by apply (committed_view_not_empty cfg st). Defined.

(** X15: typing a non-empty text into the committed input changes the
    search text and what the input shows, and nothing else: the address
    stays committed with its place id. *)
Theorem committed_typing_keeps_address (cfg : Config) (st : State) (v : string) :
  committedMode st = true →
  truthy v = true →
  let st' := step cfg st (CommittedInputChange v) in
  address st' = address st
  ∧ committed st' = committed st
  ∧ selectedPlaceId st' = selectedPlaceId st
  ∧ searchInput st' = v
  ∧ view cfg st' = CommittedView v.
Proof.
  intros Hmode Hv st'.
  assert (st' = syncInput (setSearchInput v st)) as ->.
  { unfold st'. rewrite step_simple; [|by simpl; rewrite Hmode|by simpl; rewrite Hv].
    simpl. by rewrite Hv. }
  assert (committedMode (syncInput (setSearchInput v st)) = true) as Hm
    by by rewrite syncInput_committedMode.
  destruct (syncInput_fields (setSearchInput v st)) as (Ha & Hs & Hc & Hp & _).
  repeat (split; [done|]).
  unfold view. rewrite Hm, Hs, Ha. simpl. unfold or_else. by rewrite Hv.
Qed.

Lemma committed_typing_keeps_address_witness :
  let cfg := mkConfig true true in
  let r := mkPlaceResult None (Some "Paris, France") None in
  let st := run cfg (init emptyAddress "")
              [GeocodeSettled (GeocodeResults ["ChIJD7fiBh9u5kcR"]);
               DetailsSettled "ChIJD7fiBh9u5kcR" (DetailsCallback (Some r) OK)] in
  formattedAddress (address (step cfg st (CommittedInputChange "Paris, Fr"))) = "Paris, France"
  ∧ view cfg (step cfg st (CommittedInputChange "Paris, Fr")) = CommittedView "Paris, Fr".
Proof.
  intros cfg r st.
  destruct (committed_typing_keeps_address cfg st "Paris, Fr" eq_refl eq_refl)
    as (H1 & _ & _ & _ & H5).
  split; [by rewrite H1 | exact H5].
Defined.

(** X16: the inline error and the dropdown are never rendered together. *)
Theorem inline_error_excludes_dropdown (cfg : Config) (st : State) :
  match view cfg st with
  | InputView _ _ true (Some _) => False
  | _ => True
  end.
Proof.
  unfold view. destruct (committedMode st); [done|].
  destruct (isOpen st); simpl; [|by destruct (_ && _)].
  by rewrite andb_false_r.
Qed.

(** ** Suggestions *)

Lemma suggestions_settled_state cfg st k ps :
  rendered st →
  step cfg st (SuggestionsSettled k (Some ps))
  = withCache (settleCache k (suggestionFetcher (Some ps)) (cache st)) st.
Proof.
  intros Hr.
  rewrite (settled_step cfg st (SuggestionsSettled k (Some ps)) k
             (suggestionFetcher (Some ps)) eq_refl).
  unfold rerender.
  match goal with |- syncInput (addressEffect _ ?s) = _ =>
    assert (addressEffect (detailData st) s = s) as ->
  end.
  { destruct (decide (detailKey st = Some k)) as [Heq|Hne].
    - apply addressEffect_no_address. intros a. rewrite detailData_withCache.
      rewrite Heq, hookData_settleCache_eq. done.
    - apply addressEffect_same. rewrite detailData_withCache.
      by apply hookData_settleCache_ne. }
  rewrite syncInput_withCache. by rewrite Hr.
Qed.

(** X7: when the lookup for the active query resolves, the candidates
    are the provider's predictions, one for one and in the provider's
    order, each with the prediction's place id as [placeId] and [place]
    and its description as text. *)
Theorem suggestions_keep_provider_order (cfg : Config) (st : State) (k : string)
    (ps : list AutocompletePrediction) :
  reachable cfg st →
  suggestionKey st = Some k →
  predictions (step cfg st (SuggestionsSettled k (Some ps)))
  = map (fun p => mkSuggestion (place_id p) (place_id p) (description p)) ps.
Proof.
  intros Hreach Hkey.
  rewrite suggestions_settled_state by by apply (reachable_rendered cfg).
  unfold predictions. cbn [cache withCache].
  change (suggestionKey (withCache _ st)) with (suggestionKey st).
  by rewrite Hkey, hookData_settleCache_eq.
Qed.

Lemma suggestions_keep_provider_order_witness :
  let cfg := mkConfig true true in
  let st := run cfg (init emptyAddress "")
              [InputFocus; InputChange "main"; ClockAdvance 500] in
  predictions (step cfg st
                 (SuggestionsSettled "main"
                    (Some [mkPrediction "p2" "2 Main St"; mkPrediction "p1" "1 Main St"])))
  = [mkSuggestion "p2" "p2" "2 Main St"; mkSuggestion "p1" "p1" "1 Main St"].
Proof.
  intros cfg st.
  apply (suggestions_keep_provider_order cfg st "main"
           [mkPrediction "p2" "2 Main St"; mkPrediction "p1" "1 Main St"]).
  - apply run_reachable.
  - reflexivity.
Defined.

(** X17: when the lookup for the active query resolves with no
    prediction while the dropdown is open, the dropdown shows "No address
    found" ("Please enter an address" if the text has been emptied
    meanwhile) and the inline error is not shown. *)
Theorem no_predictions_message (cfg : Config) (st : State) (k : string) :
  reachable cfg st →
  suggestionKey st = Some k →
  isOpen st = true →
  view cfg (step cfg st (SuggestionsSettled k (Some [])))
  = InputView (searchInput st)
      (if showLocationIcon cfg then Some (isLocating st) else None)
      false
      (Some (Items [] (Some (if String.eqb (searchInput st) ""
                             then "Please enter an address"
                             else "No address found")))).
Proof.
  intros Hreach Hkey Hopen.
  pose proof (reachable_rendered cfg st Hreach) as Hr.
  rewrite suggestions_settled_state by done.
  assert (committedMode st = false) as Hmode.
  { destruct (committedMode st) eqn:Hm; [|done].
    unfold rendered, syncInput in Hr. rewrite Hm in Hr.
    unfold suggestionKey in Hkey. rewrite <- Hr in Hkey. done. }
  unfold view.
  change (committedMode (withCache _ st)) with (committedMode st). rewrite Hmode.
  unfold predictions, isSuggestionsLoading.
  cbn [cache withCache searchInput isOpen isLocating selectedPlaceId].
  change (suggestionKey (withCache _ st)) with (suggestionKey st).
  rewrite Hkey, Hopen, hookData_settleCache_eq.
  unfold hookIsLoading, settleCache, suggestionFetcher, fulfil.
  rewrite lookup_insert_eq. simpl. by rewrite andb_false_r.
Qed.

Lemma no_predictions_message_witness :
  let cfg := mkConfig true true in
  let st := run cfg (init emptyAddress "")
              [InputFocus; InputChange "xyz"; ClockAdvance 500] in
  view cfg (step cfg st (SuggestionsSettled "xyz" (Some [])))
  = InputView "xyz" (Some false) false (Some (Items [] (Some "No address found"))).
Proof.
  intros cfg st.
  etrans; [apply (no_predictions_message cfg st "xyz")|reflexivity].
  - apply run_reachable.
  - reflexivity.
  - reflexivity.
Defined.

(** ** Location detection and selection *)

Lemma resolved_for_selected cfg st id r :
  reachable cfg st →
  selectedPlaceId st = id →
  id ≠ "" →
  let st' := step cfg st (DetailsSettled id (DetailsCallback (Some r) OK)) in
  selectedPlaceId st' = id
  ∧ address st' = buildAddress r
  ∧ searchInput st' = searchInput st
  ∧ isLocating st' = isLocating st
  ∧ isOpen st' = isOpen st.
Proof.
  intros Hreach Hsel Hid st'.
  assert (searchInput st' = searchInput st ∧ selectedPlaceId st' = id
          ∧ isLocating st' = isLocating st ∧ isOpen st' = isOpen st)
    as (Hs & Hp & Hl & Ho).
  { unfold st'. erewrite settled_step by reflexivity.
    match goal with |- context [rerender ?b ?s] =>
      destruct (rerender_fields b s) as (-> & -> & -> & ->)
    end. done. }
  repeat split; try done.
  apply (reachable_follows_data cfg st'); [by constructor|].
  unfold detailData, detailKey. rewrite Hp.
  destruct (String.eqb_spec id "") as [|_]; [done|].
  unfold st'. rewrite step_cache_data. simpl. by rewrite decide_True.
Qed.

(** X18: location detection commits like a selection.  When the reverse
    geocode resolves with a first result whose place id is not empty and
    the detail request for that id succeeds, the address is the one
    built from the result, [isLocating] is false and the search text is
    untouched; with a non-empty formatted address the committed input
    shows the search text, or the formatted address if that is empty. *)
Theorem location_then_resolve (cfg : Config) (st : State) (id : string)
    (ids : list string) (r : GooglePlaceResult) :
  reachable cfg st →
  id ≠ "" →
  let st1 := step cfg st (GeocodeSettled (GeocodeResults (id :: ids))) in
  let st2 := step cfg st1 (DetailsSettled id (DetailsCallback (Some r) OK)) in
  selectedPlaceId st2 = id
  ∧ address st2 = buildAddress r
  ∧ isLocating st2 = false
  ∧ searchInput st2 = searchInput st
  ∧ if truthy (formattedAddress (buildAddress r))
    then view cfg st2
         = CommittedView (or_else (searchInput st) (formattedAddress (buildAddress r)))
    else committedMode st2 = false.
Proof.
  intros Hreach Hid st1 st2.
  assert (searchInput st1 = searchInput st ∧ selectedPlaceId st1 = id
          ∧ isLocating st1 = false) as (Hs1 & Hp1 & Hl1).
  { unfold st1, step. simpl enabled. cbv iota.
    match goal with |- context [rerender ?b ?s] =>
      destruct (rerender_fields b s) as (-> & -> & -> & _)
    end. done. }
  destruct (resolved_for_selected cfg st1 id r) as (Hp2 & Ha2 & Hs2 & Hl2 & _);
    [by constructor|done|done|].
  fold st2 in Hp2, Ha2, Hs2, Hl2.
  split; [done|]. split; [done|]. split; [congruence|]. split; [congruence|].
  unfold view, committedMode. rewrite Ha2, Hs2, Hs1.
  by destruct (truthy (formattedAddress (buildAddress r))).
Qed.

Lemma location_then_resolve_witness :
  let cfg := mkConfig true true in
  let r := mkPlaceResult (Some [mkComponent "Paris" "Paris" ["locality"]])
             (Some "Paris, France") None in
  let st := run cfg (init emptyAddress "") [LocateClick true] in
  let st2 := step cfg (step cfg st (GeocodeSettled (GeocodeResults ["ChIJD7fiBh9u5kcR"])))
               (DetailsSettled "ChIJD7fiBh9u5kcR" (DetailsCallback (Some r) OK)) in
  isLocating st = true
  ∧ isLocating st2 = false
  ∧ city (address st2) = "Paris"
  ∧ view cfg st2 = CommittedView "Paris, France".
Proof.
  intros cfg r st st2.
  assert (reachable cfg st) as Hreach by apply run_reachable.
  assert ("ChIJD7fiBh9u5kcR" ≠ "") as Hid by discriminate.
  destruct (location_then_resolve cfg st "ChIJD7fiBh9u5kcR" [] r Hreach Hid)
    as (_ & H2 & H3 & _ & H5).
  split; [reflexivity|]. split; [exact H3|].
  split; [exact (f_equal city H2) | exact H5].
Defined.

(** X19: a reverse geocode that throws or finds nothing changes only
    [isLocating]: the selected place id, the address, the [setAddress]
    calls, the search text and the dropdown flag stay. *)
Theorem geocode_without_result (cfg : Config) (st : State) (o : GeocodeOutcome) :
  o = GeocodeThrew ∨ o = GeocodeResults [] →
  let st' := step cfg st (GeocodeSettled o) in
  selectedPlaceId st' = selectedPlaceId st
  ∧ address st' = address st
  ∧ committed st' = committed st
  ∧ searchInput st' = searchInput st
  ∧ isOpen st' = isOpen st.
Proof.
  intros Ho st'.
  assert (st' = rerender (detailData st) (setIsLocating false st)) as ->.
  { unfold st', step. simpl enabled. cbv iota. by destruct Ho as [-> | ->]. }
  destruct (rerender_unchanged_data (detailData st) (setIsLocating false st) eq_refl)
    as (-> & -> & -> & -> & _ & -> & _).
  done.
Qed.

Lemma geocode_without_result_witness :
  let cfg := mkConfig true true in
  let st := run cfg (init emptyAddress "") [InputChange "ab"; LocateClick true] in
  selectedPlaceId (step cfg st (GeocodeSettled (GeocodeResults []))) = ""
  ∧ searchInput (step cfg st (GeocodeSettled (GeocodeResults []))) = "ab".
Proof.
  intros cfg st.
  destruct (geocode_without_result cfg st (GeocodeResults []) (or_intror eq_refl))
    as (H1 & _ & _ & H4 & _).
  split; [etrans; [exact H1 | reflexivity] | etrans; [exact H4 | reflexivity]].
Defined.

(** X20: a click on the enabled locate button with geolocation available
    sets [isLocating], and while it is set a further click on the button
    does nothing. *)
Theorem locate_button_disabled_while_locating (cfg : Config) (st : State) (b : bool) :
  enabled cfg st (LocateClick true) = true →
  let st1 := step cfg st (LocateClick true) in
  isLocating st1 = true ∧ step cfg st1 (LocateClick b) = st1.
Proof.
  intros Hen st1.
  assert (isLocating st1 = true) as Hl.
  { unfold st1, step. rewrite Hen. simpl handle.
    match goal with |- context [rerender ?b ?s] =>
      destruct (rerender_fields b s) as (_ & _ & -> & _)
    end. done. }
  split; [done|]. unfold step at 1. simpl enabled. rewrite Hl.
  by rewrite !andb_false_r.
Qed.

Lemma locate_button_disabled_while_locating_witness :
  let cfg := mkConfig true true in
  let st1 := step cfg (init emptyAddress "") (LocateClick true) in
  isLocating st1 = true ∧ step cfg st1 (LocateClick true) = st1.
Proof.
  intros cfg st1.
  apply (locate_button_disabled_while_locating cfg (init emptyAddress "") true).
  reflexivity.
Defined.

(** X21: between events, whenever the detail hook holds an address for
    the selected place id, the host's address is that address. *)
Theorem address_matches_detail_data (cfg : Config) (st : State) (a : AddressType) :
  reachable cfg st →
  detailData st = Some (AddressData a) →
  address st = a.
Proof. intros Hreach. by apply (reachable_follows_data cfg). Qed.

Lemma address_matches_detail_data_witness :
  let cfg := mkConfig true true in
  let r := mkPlaceResult None (Some "Paris, France") None in
  let st := run cfg (init emptyAddress "")
              [GeocodeSettled (GeocodeResults ["ChIJD7fiBh9u5kcR"]);
               DetailsSettled "ChIJD7fiBh9u5kcR" (DetailsCallback (Some r) OK);
               CommittedInputChange "Par"] in
  address st = buildAddress r.
Proof.
  intros cfg r st. apply (address_matches_detail_data cfg st).
  - apply run_reachable.
  - reflexivity.
Defined.

(** X22: on the first render the initial search text is not debounced.
    With an uncommitted initial address the suggestion key is the
    initial search text at once (no key if it is empty); with a committed
    one there is no suggestion hook.  Nothing is passed to [setAddress]. *)
Theorem first_render_key (a : AddressType) (s : string) :
  suggestionKey (init a s)
  = (if truthy (formattedAddress a) then None
     else if truthy s then Some s else None)
  ∧ address (init a s) = a
  ∧ committed (init a s) = [].
Proof.
  unfold init, rerender. rewrite addressEffect_same by done.
  match goal with |- context [syncInput ?st0] =>
    destruct (syncInput_fields st0) as (-> & _ & -> & _)
  end.
  split; [|done]. unfold suggestionKey, syncInput, committedMode. simpl.
  by destruct (truthy (formattedAddress a)).
Qed.

(** X23: callbacks (settled requests, geolocation callbacks, timers)
    never change the search text. *)
Theorem callbacks_keep_search_text (cfg : Config) (st : State) (e : Event) :
  isCallback e = true →
  searchInput (step cfg st e) = searchInput st.
Proof.
  intros He. unfold step. destruct (enabled cfg st e); [|done].
  match goal with |- context [rerender ?b ?s] =>
    destruct (rerender_fields b s) as (-> & _)
  end.
  destruct e; try done; cbn [handle]; cbv zeta.
  - by destruct outcome as [|[|id ids]].
  - by destruct (fireTimers_fields (Nat.max (clock st) now)
                   (withClock (Nat.max (clock st) now) st)) as (_ & -> & _).
Qed.

Lemma callbacks_keep_search_text_witness :
  let cfg := mkConfig true true in
  let st := run cfg (init emptyAddress "") [InputChange "ab"] in
  searchInput (step cfg st (GeocodeSettled (GeocodeResults ["ChIJD7fiBh9u5kcR"]))) = "ab".
Proof.
  intros cfg st.
  etrans; [by apply (callbacks_keep_search_text cfg st)|reflexivity].
Defined.

(** X24: the selected place id changes only through a click on a
    suggestion, a reverse geocode, the clear button or the committed
    input's [onChange]; typing into the uncommitted input, focus, blur,
    keys, timers and settled requests leave it alone. *)
Theorem selection_changes_only_by (cfg : Config) (st : State) (e : Event) :
  setsSelection e = false →
  selectedPlaceId (step cfg st e) = selectedPlaceId st.
Proof.
  intros He. unfold step. destruct (enabled cfg st e); [|done].
  match goal with |- context [rerender ?b ?s] =>
    destruct (rerender_fields b s) as (_ & -> & _)
  end.
  destruct e; try done; cbn [handle]; cbv zeta.
  - by destruct (truthy (searchInput st)).
  - by destruct (String.eqb key "Escape").
  - by destruct geolocationSupported.
  - by destruct (fireTimers_fields (Nat.max (clock st) now)
                   (withClock (Nat.max (clock st) now) st)) as (_ & _ & -> & _).
Qed.

Lemma selection_changes_only_by_witness :
  let cfg := mkConfig true true in
  let st := run cfg (init emptyAddress "")
              [GeocodeSettled (GeocodeResults ["ChIJD7fiBh9u5kcR"])] in
  selectedPlaceId (step cfg st (InputChange "")) = "ChIJD7fiBh9u5kcR".
Proof.
  intros cfg st.
  etrans; [by apply (selection_changes_only_by cfg st)|reflexivity].
Defined.

(** X25: emptying the uncommitted input after a selection does not
    cancel the selection: the place id stays selected and the detail
    request, once it succeeds, still commits the address. *)
Theorem emptied_input_keeps_selection (cfg : Config) (st : State) (p : Suggestion)
    (r : GooglePlaceResult) :
  reachable cfg st →
  enabled cfg st (PredictionClick p) = true →
  place p ≠ "" →
  let st3 := run cfg st [PredictionClick p; InputChange "";
                         DetailsSettled (place p) (DetailsCallback (Some r) OK)] in
  selectedPlaceId st3 = place p ∧ address st3 = buildAddress r.
Proof.
  intros Hreach Hen Hid st3.
  set (st1 := step cfg st (PredictionClick p)).
  set (st2 := step cfg st1 (InputChange "")).
  assert (selectedPlaceId st1 = place p) as Hp1.
  { unfold st1, step. rewrite Hen. simpl handle.
    match goal with |- context [rerender ?b ?s] =>
      destruct (rerender_fields b s) as (_ & -> & _)
    end. done. }
  assert (selectedPlaceId st2 = place p) as Hp2.
  { unfold st2, step. destruct (enabled cfg st1 (InputChange "")); [|done].
    match goal with |- context [rerender ?b ?s] =>
      destruct (rerender_fields b s) as (_ & -> & _)
    end. done. }
  destruct (resolved_for_selected cfg st2 (place p) r) as (H1 & H2 & _);
    [by do 2 constructor|done|done|].
  by split.
Qed.

Lemma emptied_input_keeps_selection_witness :
  let cfg := mkConfig true true in
  let p := mkSuggestion "ChIJD7fiBh9u5kcR" "ChIJD7fiBh9u5kcR" "Paris, France" in
  let r := mkPlaceResult (Some [mkComponent "Paris" "Paris" ["locality"]])
             (Some "Paris, France") None in
  let st := run cfg (init emptyAddress "")
              [InputFocus; InputChange "Par"; ClockAdvance 500;
               SuggestionsSettled "Par"
                 (Some [mkPrediction "ChIJD7fiBh9u5kcR" "Paris, France"])] in
  let st3 := run cfg st [PredictionClick p; InputChange "";
                         DetailsSettled "ChIJD7fiBh9u5kcR" (DetailsCallback (Some r) OK)] in
  searchInput st3 = "" ∧ selectedPlaceId st3 = "ChIJD7fiBh9u5kcR"
  ∧ address st3 = buildAddress r.
Proof.
  intros cfg p r st st3.
  assert (reachable cfg st) as Hreach by apply run_reachable.
  assert (enabled cfg st (PredictionClick p) = true) as Hen by reflexivity.
  assert (place p ≠ "") as Hid by discriminate.
  destruct (emptied_input_keeps_selection cfg st p r Hreach Hen Hid) as [H1 H2].
  split; [reflexivity|]. split; [exact H1 | exact H2].
Defined.

(** ** A failed lookup, as the component shows it *)

Lemma observable_data_loading cfg st c :
  hookData c (suggestionKey st) = hookData (cache st) (suggestionKey st) →
  hookIsLoading c (suggestionKey st) = hookIsLoading (cache st) (suggestionKey st) →
  observable cfg (withCache c st) = observable cfg st.
Proof.
  intros Hdata Hload.
  assert (predictions (withCache c st) = predictions st) as Hpred.
  { unfold predictions. simpl. change (suggestionKey (withCache c st)) with (suggestionKey st).
    by rewrite Hdata. }
  unfold observable. rewrite Hpred. simpl.
  unfold view. change (committedMode (withCache c st)) with (committedMode st).
  destruct (committedMode st); [done|]. simpl. rewrite Hpred.
  unfold isSuggestionsLoading. simpl.
  change (suggestionKey (withCache c st)) with (suggestionKey st). by rewrite Hload.
Qed.

Lemma errors_not_read cfg st :
  observable cfg (withCache (forgetErrors (cache st)) st) = observable cfg st.
Proof.
  apply observable_data_loading.
  - destruct (suggestionKey st) as [k|]; [|done]. unfold hookData, forgetErrors.
    rewrite lookup_fmap. by destruct (cache st !! k).
  - destruct (suggestionKey st) as [k|]; [|done]. unfold hookIsLoading, forgetErrors.
    rewrite lookup_fmap. by destruct (cache st !! k).
Qed.

Lemma cache_event_state cfg st e c :
  rendered st →
  enabled cfg st e = true →
  handle st e = withCache c st →
  hookData c (detailKey st) = detailData st →
  step cfg st e = withCache c st.
Proof.
  intros Hr Hen Hh Hd. unfold step, rerender. rewrite Hen, Hh.
  rewrite addressEffect_same by done.
  rewrite syncInput_withCache. by rewrite Hr.
Qed.

(** C2 (amended): when the lookup for the active query fails and no data
    is cached for that query, the candidate list is empty.  The cache
    records the error, but the component never reads it: nothing it shows
    or commits depends on the errors in the cache, and at the moment the
    answer arrives everything observable is the same as after a lookup
    that resolved with zero predictions.  The two differ later only
    through the loading flag: when the request goes out again, the failed
    key is loading and the key that resolved with no prediction is not. *)
Theorem suggestion_failure_not_read (cfg : Config) (st : State) (k : string) :
  reachable cfg st →
  suggestionKey st = Some k →
  hookData (cache st) (Some k) = None →
  let failed := step cfg st (SuggestionsSettled k None) in
  let empty := step cfg st (SuggestionsSettled k (Some [])) in
  predictions failed = []
  ∧ observable cfg failed = observable cfg empty
  ∧ hookError (cache failed) (Some k) = true
  ∧ hookError (cache empty) (Some k) = false
  ∧ observable cfg (withCache (forgetErrors (cache failed)) failed) = observable cfg failed
  ∧ isSuggestionsLoading (step cfg failed (RequestStarted k)) = true
  ∧ isSuggestionsLoading (step cfg empty (RequestStarted k)) = false.
Proof.
  intros Hreach Hkey Hnone failed empty.
  destruct (suggestion_failure_instant cfg st k Hreach Hkey Hnone) as (H1 & H2 & H3 & H4).
  fold failed in H1, H2, H3. fold empty in H2, H4.
  do 4 (split; [done|]). split; [apply errors_not_read|].
  pose proof (reachable_rendered cfg st Hreach) as Hr.
  assert (failed = withCache (reject k (cache st)) st) as Hfailed.
  { unfold failed. apply cache_event_state; try done.
    rewrite hookData_reject. done. }
  assert (empty = withCache (fulfil k (SuggestionsData []) (cache st)) st) as Hempty.
  { unfold empty. by rewrite suggestions_settled_state. }
  assert (∀ c, isSuggestionsLoading (step cfg (withCache c st) (RequestStarted k))
               = match c !! k ≫= data with Some _ => false | None => true end) as Hretry.
  { intros c. rewrite (cache_event_state cfg (withCache c st) (RequestStarted k)
                         (startRequest k c)); try done.
    - unfold isSuggestionsLoading. cbn [cache withCache].
      change (suggestionKey (withCache _ _)) with (suggestionKey st).
      rewrite Hkey. unfold hookIsLoading, startRequest. by rewrite lookup_insert_eq.
    - by apply rendered_withCache.
    - rewrite detailData_withCache. apply hookData_startRequest. }
  rewrite Hfailed, Hempty, !Hretry. split.
  - unfold reject. rewrite lookup_insert_eq. simpl.
    unfold hookData in Hnone. by rewrite Hnone.
  - unfold fulfil. by rewrite lookup_insert_eq.
Qed.

(** The first lookup for "xyz" is rejected, then retried. *)
Lemma suggestion_failure_not_read_witness :
  let cfg := mkConfig true true in
  let st := run cfg (init emptyAddress "")
              [InputFocus; InputChange "xyz"; ClockAdvance 500] in
  let failed := step cfg st (SuggestionsSettled "xyz" None) in
  predictions failed = []
  ∧ observable cfg failed
    = observable cfg (step cfg st (SuggestionsSettled "xyz" (Some [])))
  ∧ isSuggestionsLoading (step cfg failed (RequestStarted "xyz")) = true.
Proof.
  intros cfg st failed.
  assert (reachable cfg st) as Hreach by apply run_reachable.
  assert (suggestionKey st = Some "xyz") as Hkey by reflexivity.
  assert (hookData (cache st) (Some "xyz") = None) as Hnone by reflexivity.
  destruct (suggestion_failure_not_read cfg st "xyz" Hreach Hkey Hnone)
    as (H1 & H2 & _ & _ & _ & H6 & _).
  split; [exact H1|]. split; [exact H2 | exact H6].
Defined.

(** ** Where a response is not dropped, and where clearing does not reset *)

(** C1, as stated, fails: the two hooks share one cache keyed by plain
    strings.  The place id "ChIJD7fiBh9u5kcR" was selected by a first
    reverse geocode and superseded by a second; the user then typed the
    same string, and the lookup for it showed one candidate.  The late
    detail answer for the superseded id is written under the key the
    suggestion hook reads, and the candidate list becomes empty. *)
Lemma late_detail_response_empties_suggestions :
  let cfg := mkConfig true true in
  let r := mkPlaceResult (Some [mkComponent "Paris" "Paris" ["locality"]])
             (Some "Paris, France") None in
  let st := run cfg (init emptyAddress "")
              [GeocodeSettled (GeocodeResults ["ChIJD7fiBh9u5kcR"]);
               GeocodeSettled (GeocodeResults ["ChIJLU7jZClu5kcR"]);
               InputFocus; InputChange "ChIJD7fiBh9u5kcR"; ClockAdvance 500;
               SuggestionsSettled "ChIJD7fiBh9u5kcR"
                 (Some [mkPrediction "ChIJD7fiBh9u5kcR" "Paris, France"])] in
  let st' := step cfg st
               (DetailsSettled "ChIJD7fiBh9u5kcR" (DetailsCallback (Some r) OK)) in
  detailKey st = Some "ChIJLU7jZClu5kcR"
  ∧ suggestionKey st = Some "ChIJD7fiBh9u5kcR"
  ∧ predictions st = [mkSuggestion "ChIJD7fiBh9u5kcR" "ChIJD7fiBh9u5kcR" "Paris, France"]
  ∧ suggestionKey st' = Some "ChIJD7fiBh9u5kcR"
  ∧ predictions st' = []
  ∧ view cfg st' ≠ view cfg st.
Proof. vm_compute. repeat split; done. Qed.

